(* ===== verification/_CoqProject ===== *)
-Q . S2P
Prelude.v
Strings.v
SiteConfig.v
Sidebar.v
Deploy.v
SiteWf.v
SiteProps.v
Profile.v
Template.v
Memo.v
Schema.v
Request.v
Engine.v
