(* ===== verification/Prelude.v ===== *)
(** * tedlt: a verification development

    ** The program

    The repository is tedlt, a command-line tool that creates issue-tracker
    tickets from a title and a layered configuration.  Two parts of it are
    covered here, and they have a different standing.

    - The documentation site configuration, [src/docs/astro.config.mjs].
      This is the only source file at hand.  It is one expression, the call
      [defineConfig({ site, base, integrations: [starlight({ title,
      description, social, sidebar, customCss })] })]: data, with no
      operation and no state.  What is modelled from it is a translation of
      its lines, and the properties of the development (the theorems of
      [SiteProps], marked C1 to C11) are all about it.  Each is a closed
      statement about the literals, decided by evaluation, that an
      erroneous edit of the file makes false.

    - The configuration resolution engine (profiles, inheritance, property
      templates, schema validation, request building).  Its code is not among
      the sources; the specification describes its design.  The definitions
      that model it are written from the specification's words, and each file
      that holds them says so at its head.  They are an executable reading of
      the specification, not a translation of code; their theorems are part of
      the library and none of C1 to C11 rests on them.

    ** Files, in dependency order

    - [Prelude] (this file): the [result] error monad, the interfaces
      [Label], [Wf] and [Labelled], the notation scope [site_scope], the
      tactic [by_compute] and the hint database [site], and generic
      functions with their lemmas: the part of a list from an element on
      ([drop_to]), lookup by a unique key ([list_find_key]), paths of a
      relation ([path]), the traversal of a finite map with a fallible
      function ([map_traverse]).
    - [Strings]: the string functions the models need (prefix and suffix
      stripping, splitting on a separator and joining, character classes,
      normalisation of a label into a path segment), each with the lemmas
      that characterise it ([strip_prefix_Some], [join_split], [split_join],
      [slugify_idemp], ...).
    - [SiteConfig]: the data of [astro.config.mjs].  One [Record] per object
      shape of the source ([SocialLink], [SidebarLink], [SidebarGroup],
      [StarlightConfig], [AstroConfig]), [Integration] for the value the call
      [starlight(...)] builds, [defineConfig], and one [Definition] per
      literal of the file, in its order ([github_link], [social_links],
      [group_getting_started], [group_usage], [group_configuration],
      [group_reference], [sidebar_groups], [custom_css], [starlight_options],
      [config]).  The shapes have the fields the file writes, all of them
      mandatory; the other entry kinds and options of Starlight do not occur
      in the file and are not represented.
    - [Sidebar]: the links of all groups in the order of the file, and the
      slugs and labels along them, with the lemmas that relate the sequence
      to the groups.
    - [Deploy]: the GitHub Pages naming scheme that ties [site], [base] and
      the repository link together: the owner and the repository that a
      configuration deploys to, read from [site] and [base]; the host of an
      address.
    - [SiteWf]: the well-formedness invariant of a configuration as an
      instance of [Wf] for each shape, its decision procedures, the
      [Labelled] instances, and the consequences of the invariant (every
      link of a well-formed sidebar is well formed, groups with the same
      label are the same group, the repository links agree with the
      deployment target).  Apart from the invariant, three conventions: a
      flat layout ([flat_slug]), labels in title case ([title_case]), and
      icons that name the service of their link ([icon_names_service]),
      with what they imply.
    - [SiteProps]: the theorems about the configuration of the repository,
      C1 to C11.  C1 to C3 are the clauses of the invariant on the slugs
      (distinct, well formed, in the directory of their group); C4 is the
      agreement of [site], [base] and the repository link; C5 is the whole
      invariant; C6 to C8 are about the labels (present, distinct, in title
      case); C9 is the flat layout; C10 is the agreement of the title with
      the repository name; C11 is the agreement of the icon, the label and
      the address of the social link.
    - [Profile]: the engine's profile document model and the profile resolver
      of the specification (section 4.1): the ancestor walk with its visited
      set, the last-writer-wins merge, the error cases, the examples of
      section 8.  Theorems: the walk always returns; it succeeds exactly on
      the lineage of the target; each error names a missing parent or a
      cycle that is really there, and both are always detected; the merged
      set gives every key the value of the most specific profile that sets
      it.
    - [Template]: the template engine of the specification (section 4.2):
      the scanner that cuts a value into literal text and placeholders, the
      resolution of a key with its stack of properties and its depth bound,
      the resolution of a whole set.  Theorems: printing and parsing is the
      identity on canonical tokens; a set without placeholder is returned
      unchanged; the resolved set is the one fixed point of substitution;
      every error names a defect that is there (a cycle of references, an
      undefined key, a chain longer than the bound); a property on a cycle
      never resolves.
    - [Memo]: the template engine with a cache of the properties already
      resolved, which the specification permits.  Theorems: the cache stays
      sound and only grows; when the cached resolver succeeds its result is
      a fixed point of substitution; when the resolver without a cache
      succeeds, the cached resolver succeeds with the same result in every
      order of the properties.  The converse fails, and the order matters
      then: a value taken from the cache costs no depth.
    - [Schema]: the schema validator (section 4.3): the rules per field in
      their order, all violations collected, defaults injected.  Theorems:
      the violations reported are exactly the failures of the rules, each
      once; validation succeeds exactly on the sets that satisfy the schema;
      the result keeps every field and adds only defaults; validation is
      idempotent when the defaults are allowed values.
    - [Request]: the issue request and its builder (section 4.4), which
      fails exactly on a missing or empty title.
    - [Engine]: the data flow of the engine (sections 2 and 6): resolver,
      overrides, template engine, validator, builder.  Theorems: a ticket
      resolves exactly when every stage succeeds; a resolution fails exactly
      as one of its stages fails, and never without an error; the explicit
      override wins over the environment override, which wins over the
      inherited value; an override and an undeclared field reach the request
      unchanged.

    ** Interfaces

    [Label] gives the three labelled shapes of the configuration one [label]
    projection.  [Wf] gives every shape its invariant under one name.
    [Labelled] is the promise a shape makes to whoever displays it: a
    well-formed value has a non-empty label; [SiteWf] discharges it for
    links, groups and social links, and [Forall_wf_label] and C6 are proved
    against it.

    ** Bounds and fuel

    Nothing in the model of the site recurses other than structurally on a
    string or a list.  The ancestor walk of [Profile] recurses on fuel; the
    resolver starts it with one more than the number of loaded profiles, and
    [Profile.ancestors_fuel] proves that this never runs out, because every
    step adds a loaded, not yet visited name to the visited names.  The
    resolution of a key in [Template] recurses on the depth bound of the
    specification, ten levels below the property being resolved
    ([Template.max_depth]); this is the bound itself and no fuel, and a
    chain that is deeper is the error the specification asks for.  The
    cached resolver of [Memo] recurses on the same bound.

    ** What is not modelled

    The Astro and Starlight libraries are not among the sources: what
    [defineConfig] and [starlight] do with the configuration (the routing
    table, the addresses of the pages, the pagination from one page to the
    next, the rendering) is library code, and the specification declares
    the documentation site out of its scope.  A model of that behaviour
    would translate no line of the repository and its theorems would hold
    of every sidebar alike, so the development has none: it states of the
    file what can be read from the file.  The two conventions it does
    borrow, the slug [index] of the home page and the GitHub Pages naming
    scheme [https://OWNER.github.io/REPO/], are definitions of [Deploy]
    with a comment saying so.  The style sheet the configuration names and
    the pages the slugs refer to are not among the sources either; only the
    path and the slugs are checked for form.  The engine's command-line
    wrapper, network client and file loading are outside the
    specification's scope.

    ** Plan

    What remains is on the side of the engine: the resolution in
    topological order of the reference graph, which the specification also
    permits, and the parser's behaviour on texts that are not canonical
    (what printing the parsed tokens returns). *)

From Stdlib Require Export Ascii.
From stdpp Require Export strings list.
From stdpp Require Import fin_maps.
From stdpp Require Import options.

(** ** The result monad

    Fallible operations return [result E A]: [Ok a] or [Err e].  The
    instances below make stdpp's [x ← m; k] notation work for it. *)

Inductive result (E A : Type) : Type :=
| Ok (a : A)
| Err (e : E).
Global Arguments Ok {E A} a.
Global Arguments Err {E A} e.

Global Instance result_ret {E} : MRet (result E) := λ A a, Ok a.
Global Instance result_bind {E} : MBind (result E) := λ A B f m,
  match m with Ok a => f a | Err e => Err e end.
Global Instance result_fmap {E} : FMap (result E) := λ A B f m,
  match m with Ok a => Ok (f a) | Err e => Err e end.

Definition is_ok {E A} (m : result E A) : bool :=
  match m with Ok _ => true | Err _ => false end.

Definition result_to_option {E A} (m : result E A) : option A :=
  match m with Ok a => Some a | Err _ => None end.

Definition option_to_result {E A} (e : E) (o : option A) : result E A :=
  match o with Some a => Ok a | None => Err e end.

Global Instance result_eq_dec {E A} `{EqDecision E, EqDecision A} :
  EqDecision (result E A).
Proof. solve_decision. Defined.

(** ** Interfaces shared by the components *)

(** Every object shape of the configuration that is shown to a reader carries
    a [label] field. *)
Class Label (A : Type) := label : A → string.
Global Hint Mode Label ! : typeclass_instances.

(** The well-formedness invariant of a component's data. *)
Class Wf (A : Type) := wf : A → Prop.
Global Hint Mode Wf ! : typeclass_instances.

(** What a shape with a label promises to whoever displays it: a well-formed
    value has a label to show. *)
Class Labelled (A : Type) `{Label A, Wf A} :=
  wf_label : ∀ x : A, wf x → label x ≠ "".
Global Hint Mode Labelled ! - - : typeclass_instances.

(** ** Notation scope *)

Declare Scope site_scope.
Delimit Scope site_scope with site.
Notation "o '?!' e" := (option_to_result e o)
  (at level 50, left associativity) : site_scope.
Global Open Scope site_scope.

(** ** Tactics and hints *)

Create HintDb site discriminated.
Create Rewrite HintDb site.

(** Closes a ground decidable goal by evaluation. *)
Ltac by_compute := compute_done.

(** ** List functions

    [drop_to x l] is the part of [l] from the first occurrence of [x] on. *)

Section list_functions.
Context {A : Type} `{EqDecision A}.
Implicit Types (x y : A) (l : list A).

Fixpoint drop_to x l : list A :=
  match l with
  | [] => []
  | a :: t => if decide (a = x) then l else drop_to x t
  end.

End list_functions.

(** ** Paths and traversals

    [path R l]: each element of [l] is related by [R] to the next one.
    [map_traverse f m] applies a fallible function to every entry of a finite
    map and collects the results, or returns the error of an entry on which
    the function fails. *)

Inductive path {A} (R : relation A) : list A → Prop :=
| path_nil : path R []
| path_one a : path R [a]
| path_cons a b l : R a b → path R (b :: l) → path R (a :: b :: l).

Definition map_traverse `{FinMap K M} {E A B}
    (f : K → A → result E B) (m : M A) : result E (M B) :=
  map_fold (λ k a acc, r ← acc; b ← f k a; Ok (<[k:=b]> r)) (Ok ∅) m.

(** ** The part of a list from an element on: lemmas *)

Section drop_to.
Context {A : Type} `{EqDecision A}.
Implicit Types (x : A) (l : list A).

Lemma drop_to_head x l : x ∈ l → head (drop_to x l) = Some x.
Proof.
  induction l as [|a t IH]; [by intros ?%elem_of_nil|].
  simpl. case_decide; subst; [done|].
  intros [?|?]%elem_of_cons; [congruence|auto].
Qed.

Lemma drop_to_suffix x l : drop_to x l `suffix_of` l.
Proof.
  induction l as [|a t IH]; simpl; [done|].
  case_decide; [done|]. by apply suffix_cons_r.
Qed.

Lemma drop_to_not_nil x l : x ∈ l → drop_to x l ≠ [].
Proof. intros H%drop_to_head E. by rewrite E in H. Qed.

End drop_to.

(** ** Labels of well-formed values *)

Lemma Forall_wf_label {A} `{Labelled A} (l : list A) :
  Forall wf l → Forall (λ x, label x ≠ "") l.
Proof. intros Hl. eapply Forall_impl; [exact Hl|]. apply wf_label. Qed.

(** ** Lookup by a key that is unique in the list *)

Lemma list_find_key {A B} `{EqDecision B} (f : A → B) (l : list A) (x : A) :
  NoDup (f <$> l) → x ∈ l → snd <$> list_find (λ y, f y = f x) l = Some x.
Proof.
  intros Hnd Hx.
  destruct (list_find_elem_of (λ y, f y = f x) l x Hx eq_refl) as [[i y] Hf].
  rewrite Hf. simpl. f_equal.
  apply list_find_Some in Hf as (Hi & Hy & _).
  apply list_elem_of_lookup in Hx as [j Hj].
  assert (i = j) as ->; [|congruence].
  eapply NoDup_lookup; [done| |]; rewrite list_lookup_fmap;
    [by rewrite Hi | rewrite Hj; simpl; congruence].
Qed.

(** ** The result monad: lemmas *)

Section result.
Context {E A B : Type}.
Implicit Types (m : result E A) (f : A → result E B).

Lemma result_bind_Ok m f b :
  m ≫= f = Ok b ↔ ∃ a, m = Ok a ∧ f a = Ok b.
Proof.
  destruct m as [a|e]; simpl; split; [intros; by exists a| |done|];
    intros (? & ? & ?); by simplify_eq.
Qed.

Lemma result_bind_Err m f e :
  m ≫= f = Err e ↔ m = Err e ∨ ∃ a, m = Ok a ∧ f a = Err e.
Proof.
  destruct m as [a|e']; simpl; split;
    [intros; right; by exists a| |intros; left; by simplify_eq|];
    intros [?|(? & ? & ?)]; by simplify_eq.
Qed.

End result.

(** ** Paths: lemmas *)

Section path.
Context {A : Type} (R : relation A).
Implicit Types (a b : A) (l : list A).

Lemma path_tail a l : path R (a :: l) → path R l.
Proof. inversion 1; subst; [constructor|done]. Qed.

Lemma path_suffix l1 l2 : l1 `suffix_of` l2 → path R l2 → path R l1.
Proof.
  intros [k ->]. induction k as [|a k IH]; [done|].
  intros Hp. apply IH. by eapply path_tail.
Qed.

Lemma path_pair a b : path R [a; b] ↔ R a b.
Proof. split; [by inversion 1|]. intros. by repeat constructor. Qed.

Lemma path_snoc l a b : path R (l ++ [a]) → R a b → path R (l ++ [a; b]).
Proof.
  intros Hp Hab. induction l as [|c l IH]; simpl in *.
  - by apply path_pair.
  - pose proof (IH (path_tail _ _ Hp)) as IH'.
    destruct l as [|c' l]; simpl in *; inversion Hp; subst; by constructor.
Qed.

Lemma path_last_step l a b : last l = Some a → path R (l ++ [b]) → R a b.
Proof.
  intros (l' & ->)%last_Some Hp. rewrite <-(assoc_L (++)) in Hp.
  apply path_pair. eapply path_suffix; [|done]. by apply suffix_app_r.
Qed.

Lemma path_prefix l1 l2 : l1 `prefix_of` l2 → path R l2 → path R l1.
Proof.
  intros [k ->] Hp. induction l1 as [|a l1 IH]; [constructor|].
  pose proof (IH (path_tail _ _ Hp)) as IH'.
  destruct l1 as [|b l1]; [constructor|].
  inversion Hp; subst. by constructor.
Qed.

(** The first element of a path reaches every element of the path. *)
Lemma path_rtc l a b : path R l → head l = Some a → b ∈ l → rtc R a b.
Proof.
  intros Hp. revert a. induction Hp as [|c|c d l Hcd Hp IH]; intros a Ha Hb.
  - done.
  - simplify_eq/=. by apply list_elem_of_singleton in Hb as ->.
  - simplify_eq/=. apply elem_of_cons in Hb as [->|Hb]; [done|].
    eapply rtc_l; [done|]. by apply IH.
Qed.

End path.

(** ** Traversal of a map: lemmas *)

Section map_traverse.
Context `{FinMap K M} {E A B : Type} (f : K → A → result E B).
Implicit Types (m : M A) (r : M B).

Lemma map_traverse_spec m :
  match map_traverse f m with
  | Ok r => map_Forall2 (λ k a b, f k a = Ok b) m r
  | Err e => ∃ k a, m !! k = Some a ∧ f k a = Err e
  end.
Proof.
  unfold map_traverse. apply (map_fold_weak_ind (λ acc m,
    match acc with
    | Ok r => map_Forall2 (λ k a b, f k a = Ok b) m r
    | Err e => ∃ k a, m !! k = Some a ∧ f k a = Err e
    end)); [apply map_Forall2_empty|].
  intros i x m' [r|e] Hi IH; simpl.
  - destruct (f i x) as [b|e] eqn:Hf; simpl.
    + by apply map_Forall2_insert_2.
    + exists i, x. by rewrite lookup_insert_eq.
  - destruct IH as (k & a & Hk & Hf). exists k, a.
    rewrite lookup_insert_ne; [done|congruence].
Qed.

Lemma map_traverse_Ok m r :
  map_traverse f m = Ok r ↔ map_Forall2 (λ k a b, f k a = Ok b) m r.
Proof.
  pose proof (map_traverse_spec m) as Hs. split.
  - intros Heq. by rewrite Heq in Hs.
  - intros Hr. destruct (map_traverse f m) as [r'|e].
    + f_equal. apply map_eq. intros k. specialize (Hs k). specialize (Hr k).
      destruct Hs; inversion Hr; congruence.
    + destruct Hs as (k & a & Hk & Hf). specialize (Hr k).
      rewrite Hk in Hr. inversion Hr. congruence.
Qed.

Lemma map_traverse_Err m e :
  map_traverse f m = Err e → ∃ k a, m !! k = Some a ∧ f k a = Err e.
Proof.
  intros Heq. pose proof (map_traverse_spec m) as Hs. by rewrite Heq in Hs.
Qed.

Lemma map_traverse_lookup m r k :
  map_traverse f m = Ok r →
  r !! k = m !! k ≫= λ a, result_to_option (f k a).
Proof.
  intros Hr%map_traverse_Ok. specialize (Hr k).
  destruct Hr as [a b Hf|]; simpl; [by rewrite Hf|done].
Qed.

Lemma map_traverse_is_ok m :
  is_ok (map_traverse f m) ↔ ∀ k a, m !! k = Some a → is_ok (f k a).
Proof.
  pose proof (map_traverse_spec m) as Hs.
  destruct (map_traverse f m) as [r|e]; simpl; split; try done.
  - intros _ k a Hk. specialize (Hs k). rewrite Hk in Hs.
    inversion Hs as [? b Hf|]. by rewrite Hf.
  - destruct Hs as (k & a & Hk & Hf). intros Hall.
    specialize (Hall k a Hk). by rewrite Hf in Hall.
Qed.

End map_traverse.
