(* ===== verification/Strings.v ===== *)
(** * Strings

    String functions used to state and check the properties of the site
    configuration: stripping a prefix or a suffix, splitting on a separator
    character and joining, character classes, and the normalisation of a
    label into a path segment.  Each comes with the lemmas that characterise
    it, so that the components reason with the lemmas and evaluate with the
    functions. *)

From S2P Require Import Prelude.
From stdpp Require Import options.

Implicit Types (a c : ascii) (s p r w : string) (ws : list string).

(** stdpp keeps [+:+] from unfolding under [simpl]; in this file it unfolds
    when its first argument starts with a constructor. *)
Local Arguments String.append !_ _ / : simpl nomatch.

(** ** Definitions *)

Fixpoint chars s : list ascii :=
  match s with
  | "" => []
  | String a s' => a :: chars s'
  end.

Fixpoint of_chars (l : list ascii) : string :=
  match l with
  | [] => ""
  | a :: l' => String a (of_chars l')
  end.

(** [strip_prefix p s] is [Some r] when [s] is [p] followed by [r]. *)
Fixpoint strip_prefix p s : option string :=
  match p, s with
  | "", _ => Some s
  | String a p', String b s' =>
      if decide (a = b) then strip_prefix p' s' else None
  | String _ _, "" => None
  end.

(** [strip_suffix x s] is [Some r] when [s] is [r] followed by [x]. *)
Definition strip_suffix x s : option string :=
  String.rev <$> strip_prefix (String.rev x) (String.rev s).

Definition starts_with p s : bool := bool_decide (is_Some (strip_prefix p s)).
Definition ends_with x s : bool := bool_decide (is_Some (strip_suffix x s)).

(** [split_on c s] cuts [s] at every occurrence of [c]; the result is never
    empty and has one more element than [s] has occurrences of [c]. *)
Fixpoint split_on c s : list string :=
  match s with
  | "" => [""]
  | String a s' =>
      if decide (a = c) then "" :: split_on c s'
      else match split_on c s' with
           | [] => [String a ""]
           | w :: ws => String a w :: ws
           end
  end.

Fixpoint join c ws : string :=
  match ws with
  | [] => ""
  | [w] => w
  | w :: ws' => w +:+ String c (join c ws')
  end.

Definition in_range (lo hi : N) a : bool :=
  let n := Ascii.N_of_ascii a in (lo <=? n)%N && (n <=? hi)%N.

Definition is_lower a : bool := in_range 97 122 a.
Definition is_upper a : bool := in_range 65 90 a.
Definition is_digit a : bool := in_range 48 57 a.

(** The characters of a path segment: lower-case letters, digits, hyphen. *)
Definition is_slug_char a : bool :=
  is_lower a || is_digit a || bool_decide (a = "-"%char).

Definition to_lower a : ascii :=
  if is_upper a then Ascii.ascii_of_N (Ascii.N_of_ascii a + 32) else a.

Definition slug_char a : option ascii :=
  if is_upper a then Some (to_lower a)
  else if is_slug_char a then Some a
  else if bool_decide (a = " "%char) then Some "-"%char
  else None.

Fixpoint slugify s : string :=
  match s with
  | "" => ""
  | String a s' =>
      match slug_char a with
      | Some b => String b (slugify s')
      | None => slugify s'
      end
  end.

(** ** Lemmas *)

(** *** Characters of a string *)

Lemma of_chars_chars s : of_chars (chars s) = s.
Proof. induction s; simpl; congruence. Qed.

Lemma chars_of_chars l : chars (of_chars l) = l.
Proof. induction l; simpl; congruence. Qed.

(** The computation rules of [+:+], for the files where it does not unfold. *)
Lemma string_app_nil_l s : "" +:+ s = s.
Proof. reflexivity. Qed.

Lemma string_app_cons a s1 s2 : String a s1 +:+ s2 = String a (s1 +:+ s2).
Proof. reflexivity. Qed.

Lemma chars_app s1 s2 : chars (s1 +:+ s2) = chars s1 ++ chars s2.
Proof. induction s1; simpl; congruence. Qed.

Lemma chars_length s : length (chars s) = String.length s.
Proof. induction s; simpl; congruence. Qed.

Global Instance chars_inj : Inj (=) (=) chars.
Proof. intros s1 s2 H. by rewrite <-(of_chars_chars s1), H, of_chars_chars. Qed.

Lemma string_app_nil_r s : s +:+ "" = s.
Proof. apply (inj chars). by rewrite chars_app, app_nil_r. Qed.

Lemma string_app_assoc s1 s2 s3 : (s1 +:+ s2) +:+ s3 = s1 +:+ (s2 +:+ s3).
Proof. apply (inj chars). by rewrite !chars_app, app_assoc. Qed.

Lemma string_app_length s1 s2 :
  String.length (s1 +:+ s2) = String.length s1 + String.length s2.
Proof. rewrite <-!chars_length, chars_app. apply length_app. Qed.

Lemma string_app_inj_r s1 s2 s : s1 +:+ s = s2 +:+ s → s1 = s2.
Proof.
  intros H. apply (inj chars). apply (f_equal chars) in H.
  rewrite !chars_app in H. by apply app_inv_tail in H.
Qed.

#[export] Hint Rewrite string_app_nil_l string_app_cons chars_app
  chars_of_chars of_chars_chars string_app_nil_r string_app_assoc
  string_app_length : site.

(** *** Prefix and suffix *)

Lemma strip_prefix_Some p s r : strip_prefix p s = Some r ↔ s = p +:+ r.
Proof.
  revert s. induction p as [|a p IH]; intros s; simpl.
  - split; congruence.
  - destruct s as [|b s]; [split; congruence|].
    case_decide; subst; rewrite ?IH; split; congruence.
Qed.

Lemma strip_prefix_app p r : strip_prefix p (p +:+ r) = Some r.
Proof. by apply strip_prefix_Some. Qed.

Lemma strip_prefix_None p s : strip_prefix p s = None ↔ ∀ r, s ≠ p +:+ r.
Proof.
  rewrite eq_None_not_Some. unfold is_Some.
  setoid_rewrite strip_prefix_Some.
  split; [intros H r Hr; apply H; eauto | intros H [r Hr]; by eapply H].
Qed.

Lemma chars_rev_app s acc :
  chars (String.rev_app s acc) = reverse (chars s) ++ chars acc.
Proof.
  revert acc. induction s as [|a s IH]; intros acc; simpl; [done|].
  rewrite IH, reverse_cons, <-app_assoc. done.
Qed.

Lemma chars_rev s : chars (String.rev s) = reverse (chars s).
Proof. unfold String.rev. by rewrite chars_rev_app, app_nil_r. Qed.

Lemma string_rev_involutive s : String.rev (String.rev s) = s.
Proof. apply (inj chars). by rewrite !chars_rev, reverse_involutive. Qed.

Lemma string_rev_app s1 s2 :
  String.rev (s1 +:+ s2) = String.rev s2 +:+ String.rev s1.
Proof.
  apply (inj chars). by rewrite chars_app, !chars_rev, chars_app, reverse_app.
Qed.

Lemma strip_suffix_Some x s r : strip_suffix x s = Some r ↔ s = r +:+ x.
Proof.
  unfold strip_suffix. rewrite fmap_Some. setoid_rewrite strip_prefix_Some.
  split.
  - intros (r' & Hs & ->). apply (f_equal String.rev) in Hs.
    by rewrite string_rev_involutive, string_rev_app, string_rev_involutive
      in Hs.
  - intros ->. exists (String.rev r).
    by rewrite string_rev_app, string_rev_involutive.
Qed.

Lemma strip_suffix_app r x : strip_suffix x (r +:+ x) = Some r.
Proof. by apply strip_suffix_Some. Qed.

Lemma starts_with_spec p s : starts_with p s = true ↔ ∃ r, s = p +:+ r.
Proof.
  unfold starts_with. rewrite bool_decide_eq_true. unfold is_Some.
  by setoid_rewrite strip_prefix_Some.
Qed.

Lemma ends_with_spec x s : ends_with x s = true ↔ ∃ r, s = r +:+ x.
Proof.
  unfold ends_with. rewrite bool_decide_eq_true. unfold is_Some.
  by setoid_rewrite strip_suffix_Some.
Qed.

Lemma starts_with_app p r : starts_with p (p +:+ r) = true.
Proof. apply starts_with_spec. by exists r. Qed.

#[export] Hint Rewrite strip_prefix_app strip_suffix_app starts_with_app : site.

(** *** Splitting and joining *)

Lemma split_on_not_nil c s : split_on c s ≠ [].
Proof. destruct s; simpl; repeat case_match; done. Qed.

Lemma join_cons c w ws : ws ≠ [] → join c (w :: ws) = w +:+ String c (join c ws).
Proof. by destruct ws. Qed.

Lemma join_split c s : join c (split_on c s) = s.
Proof.
  induction s as [|a s IH]; simpl; [done|].
  pose proof (split_on_not_nil c s) as Hne.
  case_decide; subst.
  - by rewrite join_cons, IH.
  - destruct (split_on c s) as [|w ws]; [done|].
    rewrite <-IH. by destruct ws.
Qed.

Lemma split_on_no_sep c s : c ∉ chars s → split_on c s = [s].
Proof.
  induction s as [|a s IH]; simpl; [done|].
  rewrite not_elem_of_cons. intros [? Hs].
  rewrite decide_False by done. by rewrite IH.
Qed.

Lemma split_on_app_sep c w s :
  c ∉ chars w → split_on c (w +:+ String c s) = w :: split_on c s.
Proof.
  induction w as [|a w IH]; simpl.
  - intros _. by rewrite decide_True.
  - rewrite not_elem_of_cons. intros [? Hw].
    rewrite decide_False by done. by rewrite IH.
Qed.

Lemma split_join c ws :
  ws ≠ [] → Forall (λ w, c ∉ chars w) ws → split_on c (join c ws) = ws.
Proof.
  intros Hne Hall. induction Hall as [|w ws Hw Hall IH]; [done|].
  destruct ws as [|w' ws'].
  - by apply split_on_no_sep.
  - rewrite join_cons by done. rewrite split_on_app_sep by done.
    by rewrite IH.
Qed.

Lemma split_on_no_sep_inside c s : Forall (λ w, c ∉ chars w) (split_on c s).
Proof.
  induction s as [|a s IH]; simpl.
  - repeat constructor. by apply not_elem_of_nil.
  - case_decide; subst.
    + constructor; [apply not_elem_of_nil | done].
    + pose proof (split_on_not_nil c s) as Hne.
      destruct (split_on c s) as [|w ws]; [done|].
      apply Forall_cons in IH as [Hw Hws].
      constructor; [|done]. simpl. by apply not_elem_of_cons.
Qed.

Global Instance split_on_inj c : Inj (=) (=) (split_on c).
Proof. intros s1 s2 H. by rewrite <-(join_split c s1), H, join_split. Qed.

(** *** Character classes *)

Lemma in_range_spec lo hi a :
  in_range lo hi a = true ↔ (lo ≤ Ascii.N_of_ascii a ≤ hi)%N.
Proof. unfold in_range. cbv zeta. rewrite andb_true_iff, !N.leb_le. done. Qed.

Lemma to_lower_upper a : is_upper a = true → is_lower (to_lower a) = true.
Proof.
  unfold to_lower. intros Hu. rewrite Hu. unfold is_upper, is_lower in *.
  apply in_range_spec in Hu. apply in_range_spec.
  rewrite Ascii.N_ascii_embedding; lia.
Qed.

Lemma slash_not_slug_char : is_slug_char "/" = false.
Proof. done. Qed.

Lemma is_slug_char_not_upper a : is_slug_char a = true → is_upper a = false.
Proof.
  unfold is_slug_char, is_lower, is_digit, is_upper.
  rewrite !orb_true_iff, !in_range_spec, bool_decide_eq_true.
  intros [[H|H]|Ha]; [| |by subst]; apply not_true_is_false;
    rewrite in_range_spec; lia.
Qed.

(** *** Normalising a label into a path segment

    Upper-case letters are lowered, spaces become hyphens, the characters of
    a segment are kept and everything else is dropped. *)

Lemma slug_char_is_slug_char a b : slug_char a = Some b → is_slug_char b = true.
Proof.
  unfold slug_char. repeat case_match; intros; simplify_eq; try done.
  unfold is_slug_char. by rewrite to_lower_upper.
Qed.

Lemma slug_char_fixed a : is_slug_char a = true → slug_char a = Some a.
Proof.
  intros H. unfold slug_char. by rewrite is_slug_char_not_upper, H.
Qed.

Lemma slugify_chars s : Forall (λ a, is_slug_char a = true) (chars (slugify s)).
Proof.
  induction s as [|a s IH]; simpl; [constructor|].
  destruct (slug_char a) eqn:E; simpl; [|done].
  constructor; [by eapply slug_char_is_slug_char | done].
Qed.

Lemma slugify_fixed s :
  Forall (λ a, is_slug_char a = true) (chars s) → slugify s = s.
Proof.
  induction s as [|a s IH]; simpl; [done|].
  intros [Ha Hs]%Forall_cons. by rewrite slug_char_fixed, IH.
Qed.

Lemma slugify_idemp s : slugify (slugify s) = slugify s.
Proof. apply slugify_fixed, slugify_chars. Qed.

Lemma slugify_app s1 s2 : slugify (s1 +:+ s2) = slugify s1 +:+ slugify s2.
Proof.
  induction s1 as [|a s1 IH]; simpl; [done|].
  destruct (slug_char a); simpl; by rewrite IH.
Qed.

#[export] Hint Rewrite slugify_idemp slugify_app join_split : site.
#[export] Hint Resolve slugify_chars split_on_not_nil split_on_no_sep_inside
  : site.
