(* ===== verification/SiteConfig.v ===== *)
(** * The documentation site configuration

    A translation of [src/docs/astro.config.mjs].  The file is one expression,
    [defineConfig({...})], built from object and array literals.  Each object
    shape of the file is a [Record] here, with the field names of the source
    ([label] occurs in three shapes and is reached through the [Label]
    interface); each literal is a [Definition], in the order of the file. *)

From S2P Require Import Prelude.
From stdpp Require Import options.

(** ** Object shapes *)

(** An entry of [social]: [{ icon, label, href }]. *)
Record SocialLink := {
  icon : string;
  social_label : string;
  href : string;
}.

(** An entry of a group's [items]: [{ label, slug }]. *)
Record SidebarLink := {
  link_label : string;
  slug : string;
}.

(** An entry of [sidebar]: [{ label, items }]. *)
Record SidebarGroup := {
  group_label : string;
  items : list SidebarLink;
}.

(** The argument of [starlight(...)]. *)
Record StarlightConfig := {
  title : string;
  description : string;
  social : list SocialLink;
  sidebar : list SidebarGroup;
  customCss : list string;
}.

(** An element of [integrations].  The file imports the function
    [starlight] from [@astrojs/starlight] and builds one with the call
    [starlight({...})]. *)
Inductive Integration :=
| starlight (options : StarlightConfig).

(** The argument of [defineConfig(...)]. *)
Record AstroConfig := {
  site : string;
  base : string;
  integrations : list Integration;
}.

(** [defineConfig], imported from [astro/config], returns the configuration
    it is given; it exists for the type checking that [// @ts-check] asks
    for, which is the typing of the record here. *)
Definition defineConfig (c : AstroConfig) : AstroConfig := c.

Global Instance SocialLink_label : Label SocialLink := social_label.
Global Instance SidebarLink_label : Label SidebarLink := link_label.
Global Instance SidebarGroup_label : Label SidebarGroup := group_label.

Global Instance SocialLink_eq_dec : EqDecision SocialLink.
Proof. solve_decision. Defined.
Global Instance SidebarLink_eq_dec : EqDecision SidebarLink.
Proof. solve_decision. Defined.
Global Instance SidebarGroup_eq_dec : EqDecision SidebarGroup.
Proof. solve_decision. Defined.
Global Instance StarlightConfig_eq_dec : EqDecision StarlightConfig.
Proof. solve_decision. Defined.
Global Instance Integration_eq_dec : EqDecision Integration.
Proof. solve_decision. Defined.
Global Instance AstroConfig_eq_dec : EqDecision AstroConfig.
Proof. solve_decision. Defined.

(** ** The literals of the file *)

Definition github_link : SocialLink := {|
  icon := "github";
  social_label := "GitHub";
  href := "https://github.com/brequet/tedlt";
|}.

Definition social_links : list SocialLink := [github_link].

Definition group_getting_started : SidebarGroup := {|
  group_label := "Getting Started";
  items := [
    {| link_label := "Introduction"; slug := "index" |};
    {| link_label := "Installation"; slug := "getting-started/installation" |};
    {| link_label := "Quick Start"; slug := "getting-started/quick-start" |}
  ];
|}.

Definition group_usage : SidebarGroup := {|
  group_label := "Usage";
  items := [
    {| link_label := "Creating Tickets"; slug := "usage/creating-tickets" |};
    {| link_label := "Using Profiles"; slug := "usage/profiles" |};
    {| link_label := "Discovering Jira Info"; slug := "usage/info-commands" |}
  ];
|}.

Definition group_configuration : SidebarGroup := {|
  group_label := "Configuration";
  items := [
    {| link_label := "Overview"; slug := "configuration/overview" |};
    {| link_label := "Environment Variables";
       slug := "configuration/environment" |};
    {| link_label := "Configuration File";
       slug := "configuration/config-file" |};
    {| link_label := "Profiles"; slug := "configuration/profiles" |};
    {| link_label := "Profile Inheritance";
       slug := "configuration/inheritance" |};
    {| link_label := "Property Templates";
       slug := "configuration/properties" |}
  ];
|}.

Definition group_reference : SidebarGroup := {|
  group_label := "Reference";
  items := [
    {| link_label := "Commands"; slug := "reference/commands" |};
    {| link_label := "Configuration Schema";
       slug := "reference/config-schema" |}
  ];
|}.

Definition sidebar_groups : list SidebarGroup :=
  [group_getting_started; group_usage; group_configuration; group_reference].

Definition custom_css : list string := ["./src/styles/custom.css"].

Definition starlight_options : StarlightConfig := {|
  title := "tedlt";
  description :=
    "A CLI tool to create Jira tickets from the command line with just a title";
  social := social_links;
  sidebar := sidebar_groups;
  customCss := custom_css;
|}.

(** The default export of the file. *)
Definition config : AstroConfig := defineConfig {|
  site := "https://brequet.github.io";
  base := "/tedlt";
  integrations := [starlight starlight_options];
|}.

(** ** Access to the Starlight part of a configuration *)

(** The options of the Starlight integrations of a configuration, in order. *)
Definition starlight_of (c : AstroConfig) : list StarlightConfig :=
  (λ i, match i with starlight o => o end) <$> integrations c.
