(* ===== verification/Sidebar.v ===== *)
(** * The link sequence of a sidebar

    The configuration gives the sidebar as groups of links.  The invariant
    of [SiteWf] speaks of the links of all groups together: the sequence of
    links in the order of the file, and the slugs and labels along it.
    These are defined here over any sidebar of the configuration's shape,
    with the lemmas that relate the sequence to the groups. *)

From S2P Require Import Prelude SiteConfig.
From stdpp Require Import options.

Implicit Types (sb : list SidebarGroup) (g : SidebarGroup) (l : SidebarLink).
Implicit Types (s : string).

(** ** Definitions *)

(** The links in the order of the file: the items of the groups,
    concatenated. *)
Definition sidebar_links sb : list SidebarLink := g ← sb; items g.

Definition group_slugs g : list string := slug <$> items g.

Definition sidebar_slugs sb : list string := slug <$> sidebar_links sb.

Definition sidebar_labels sb : list string := label <$> sidebar_links sb.

(** ** The link sequence *)

Lemma sidebar_links_cons g sb : sidebar_links (g :: sb) = items g ++ sidebar_links sb.
Proof. reflexivity. Qed.

Lemma sidebar_slugs_cons g sb :
  sidebar_slugs (g :: sb) = group_slugs g ++ sidebar_slugs sb.
Proof. unfold sidebar_slugs. by rewrite sidebar_links_cons, fmap_app. Qed.

Lemma elem_of_sidebar_links l sb :
  l ∈ sidebar_links sb ↔ ∃ g, g ∈ sb ∧ l ∈ items g.
Proof. unfold sidebar_links. rewrite list_elem_of_bind. naive_solver. Qed.

Lemma elem_of_sidebar_slugs s sb :
  s ∈ sidebar_slugs sb ↔ ∃ g, g ∈ sb ∧ s ∈ group_slugs g.
Proof.
  unfold sidebar_slugs, group_slugs. rewrite list_elem_of_fmap.
  setoid_rewrite elem_of_sidebar_links. setoid_rewrite list_elem_of_fmap.
  naive_solver.
Qed.

(** Distinct slugs over the whole sidebar means distinct slugs in every group
    and no slug shared by two groups. *)
Lemma sidebar_slugs_NoDup_cons g sb :
  NoDup (sidebar_slugs (g :: sb)) ↔
  NoDup (group_slugs g) ∧ (∀ s, s ∈ group_slugs g → s ∉ sidebar_slugs sb) ∧
  NoDup (sidebar_slugs sb).
Proof. rewrite sidebar_slugs_cons. apply NoDup_app. Qed.

Lemma elem_of_sidebar_labels s sb :
  s ∈ sidebar_labels sb ↔ ∃ g l, g ∈ sb ∧ l ∈ items g ∧ label l = s.
Proof.
  unfold sidebar_labels. rewrite list_elem_of_fmap.
  setoid_rewrite elem_of_sidebar_links. naive_solver.
Qed.
