(* ===== verification/Deploy.v ===== *)
(** * The deployment target

    How the fields [site] and [base] of the configuration and the link to
    the repository name one GitHub Pages project, and the host an address
    is on.

    The GitHub Pages naming scheme ([https://OWNER.github.io] with base
    [/REPO] for the repository [https://github.com/OWNER/REPO]) and the slug
    [index] of the home page are conventions of the host and of the site
    generator.  They are stated here as definitions; the lemmas hold for
    every configuration, and [SiteProps] evaluates the definitions on the
    configuration of the repository. *)

From S2P Require Import Prelude Strings SiteConfig.
From stdpp Require Import options.

Implicit Types (c : AstroConfig) (b s o r : string).

(** The slug of the home page. *)
Definition home_slug : string := "index".

(** ** The deployment target *)

Definition pages_site o : string := "https://" +:+ o +:+ ".github.io".
Definition project_base r : string := "/" +:+ r.
Definition repo_url o r : string := "https://github.com/" +:+ o +:+ "/" +:+ r.

(** The owner a [site] address names, when it is a GitHub Pages address. *)
Definition pages_owner (site : string) : option string :=
  strip_prefix "https://" site ≫= strip_suffix ".github.io".

(** The repository a [base] path names. *)
Definition base_repo b : option string := strip_prefix "/" b.

(** The owner and repository a configuration deploys to. *)
Definition deploy_target c : option (string * string) :=
  o ← pages_owner (site c); r ← base_repo (base c); Some (o, r).

(** The host of an https address: what stands between the scheme and the
    first slash. *)
Definition url_host (url : string) : option string :=
  rest ← strip_prefix "https://" url; head (split_on "/" rest).

(** ** The deployment target: lemmas *)

Lemma pages_owner_Some site o : pages_owner site = Some o ↔ site = pages_site o.
Proof.
  unfold pages_owner, pages_site. rewrite bind_Some.
  setoid_rewrite strip_prefix_Some. setoid_rewrite strip_suffix_Some.
  split; [by intros (r & -> & ->) | intros ->; eauto].
Qed.

Lemma base_repo_Some b r : base_repo b = Some r ↔ b = project_base r.
Proof. apply strip_prefix_Some. Qed.

Lemma deploy_target_Some c o r :
  deploy_target c = Some (o, r) ↔
  site c = pages_site o ∧ base c = project_base r.
Proof.
  unfold deploy_target. split.
  - intros (o' & Ho & (r' & Hr & ?)%bind_Some)%bind_Some. simplify_eq.
    split; [by apply pages_owner_Some | by apply base_repo_Some].
  - intros [Hs%pages_owner_Some Hb%base_repo_Some].
    rewrite Hs. simpl. by rewrite Hb.
Qed.

(** Reading the target back from the addresses built for it. *)
Lemma pages_owner_pages_site o : pages_owner (pages_site o) = Some o.
Proof. by apply pages_owner_Some. Qed.

Lemma base_repo_project_base r : base_repo (project_base r) = Some r.
Proof. by apply base_repo_Some. Qed.

(** ** Hosts *)

Lemma url_host_app h p :
  "/"%char ∉ chars h → url_host ("https://" +:+ h +:+ "/" +:+ p) = Some h.
Proof.
  intros Hh. unfold url_host. rewrite strip_prefix_app. simpl.
  change (h +:+ "/" +:+ p) with (h +:+ String "/" p).
  by rewrite split_on_app_sep.
Qed.

(** The address of a repository is on the host of GitHub. *)
Lemma url_host_repo_url o r : url_host (repo_url o r) = Some "github.com".
Proof.
  unfold repo_url.
  change ("https://github.com/" +:+ o +:+ "/" +:+ r)
    with ("https://" +:+ "github.com" +:+ "/" +:+ (o +:+ "/" +:+ r)).
  apply url_host_app. by_compute.
Qed.

#[export] Hint Rewrite pages_owner_pages_site base_repo_project_base
  url_host_repo_url : site.
