(* ===== verification/SiteWf.v ===== *)
(** * Well-formed site configurations

    The invariant a site configuration has to satisfy for the site to build
    and deploy as intended, as an instance of [Wf] for each shape of
    [SiteConfig], each with its decision procedure, and the consequences of
    the invariant.  The conventions the configuration follows beyond what
    the site needs to build (a flat layout of the pages, labels in title
    case, icons that name the service of their link) are stated apart from
    the invariant, at the end of the
    definitions.

    - A slug is a sequence of non-empty segments of lower-case letters,
      digits and hyphens, separated by single slashes.
    - A link has a label and a well-formed slug.
    - A group has a label and at least one link; its links are well formed
      and lie in the directory named after the group (the home page apart).
    - A sidebar has well-formed groups with distinct directories (so with
      distinct labels) and no slug twice.
    - A social link has an icon, a label and an https address.
    - The Starlight options have a title, well-formed social links and
      sidebar, and style sheets given as relative [.css] paths.
    - A configuration names a GitHub Pages deployment target, its
      integrations are well formed, and the links with the [github] icon
      point to the repository of that target. *)

From S2P Require Import Prelude Strings SiteConfig Sidebar Deploy.
From stdpp Require Import options.

Implicit Types (sb : list SidebarGroup) (g : SidebarGroup) (l : SidebarLink).
Implicit Types (s w : string) (c : AstroConfig).

(** ** Slugs *)

Definition wf_segment w : Prop :=
  w ≠ "" ∧ Forall (λ a, is_slug_char a = true) (chars w).

Definition wf_slug s : Prop := Forall wf_segment (split_on "/" s).

(** The directory of a slug: its first segment, when it has more than one. *)
Definition slug_dir s : option string :=
  match split_on "/" s with
  | d :: _ :: _ => Some d
  | _ => None
  end.

(** The directory of a group: its label as a path segment. *)
Definition group_dir g : string := slugify (group_label g).

(** A link lies in the directory of its group, or is the home page. *)
Definition in_group_dir g l : Prop :=
  slug l = home_slug ∨ slug_dir (slug l) = Some (group_dir g).

(** A style sheet path. *)
Definition wf_css p : Prop :=
  starts_with "./" p = true ∧ ends_with ".css" p = true.

(** ** The invariant *)

Global Instance wf_link : Wf SidebarLink := λ l,
  link_label l ≠ "" ∧ wf_slug (slug l).

Global Instance wf_group : Wf SidebarGroup := λ g,
  group_label g ≠ "" ∧ items g ≠ [] ∧
  Forall wf (items g) ∧ Forall (in_group_dir g) (items g).

Global Instance wf_sidebar : Wf (list SidebarGroup) := λ sb,
  Forall wf sb ∧ NoDup (group_dir <$> sb) ∧ NoDup (sidebar_slugs sb).

Global Instance wf_social : Wf SocialLink := λ k,
  icon k ≠ "" ∧ social_label k ≠ "" ∧ starts_with "https://" (href k) = true.

Global Instance wf_starlight : Wf StarlightConfig := λ o,
  title o ≠ "" ∧ Forall wf (social o) ∧ wf (sidebar o) ∧
  Forall wf_css (customCss o).

Global Instance wf_integration : Wf Integration := λ i,
  match i with starlight o => wf o end.

(** The links to the repository agree with the deployment target [t]. *)
Definition repo_links_agree (t : string * string) (o : StarlightConfig) : Prop :=
  Forall (λ k, icon k = "github" → href k = repo_url t.1 t.2) (social o).

Global Instance wf_config : Wf AstroConfig := λ c,
  Forall wf (integrations c) ∧
  ∃ t, deploy_target c = Some t ∧ Forall (repo_links_agree t) (starlight_of c).

(** ** Conventions

    Three conventions that the site does not need in order to build, and
    that a well-kept configuration follows. *)

(** The number of segments of a slug. *)
Definition slug_depth s : nat := length (split_on "/" s).

(** A flat page: the home page, or a page directly in a directory. *)
Definition flat_slug s : Prop := s = home_slug ∨ slug_depth s = 2.

(** A word that starts with a capital letter. *)
Definition capitalised w : Prop :=
  match chars w with a :: _ => is_upper a = true | [] => False end.

(** A label in title case: capitalised words separated by single spaces,
    with no space at either end. *)
Definition title_case s : Prop := Forall capitalised (split_on " " s).

(** A social link whose icon names the service it points to: the icon is the
    label written as a path segment, and the address is on the host of that
    name. *)
Definition icon_names_service (k : SocialLink) : Prop :=
  icon k = slugify (label k) ∧ url_host (href k) = Some (icon k +:+ ".com").

(** ** Decision procedures *)

Global Instance wf_segment_dec w : Decision (wf_segment w).
Proof. unfold wf_segment. apply _. Defined.
Global Instance wf_slug_dec s : Decision (wf_slug s).
Proof. unfold wf_slug. apply _. Defined.
Global Instance in_group_dir_dec g l : Decision (in_group_dir g l).
Proof. unfold in_group_dir. apply _. Defined.
Global Instance wf_css_dec p : Decision (wf_css p).
Proof. unfold wf_css. apply _. Defined.
Global Instance flat_slug_dec s : Decision (flat_slug s).
Proof. unfold flat_slug. apply _. Defined.
Global Instance capitalised_dec w : Decision (capitalised w).
Proof. unfold capitalised. destruct (chars w); apply _. Defined.
Global Instance title_case_dec s : Decision (title_case s).
Proof. unfold title_case. apply _. Defined.
Global Instance icon_names_service_dec k : Decision (icon_names_service k).
Proof. unfold icon_names_service. apply _. Defined.
Global Instance wf_link_dec l : Decision (wf l).
Proof. unfold wf, wf_link. apply _. Defined.
Global Instance wf_group_dec g : Decision (wf g).
Proof. unfold wf, wf_group. apply _. Defined.
Global Instance wf_sidebar_dec sb : Decision (wf sb).
Proof. unfold wf, wf_sidebar. apply _. Defined.
Global Instance wf_social_dec (k : SocialLink) : Decision (wf k).
Proof. unfold wf, wf_social. apply _. Defined.
Global Instance wf_starlight_dec (o : StarlightConfig) : Decision (wf o).
Proof. unfold wf, wf_starlight. apply _. Defined.
Global Instance wf_integration_dec (i : Integration) : Decision (wf i).
Proof. destruct i. unfold wf, wf_integration. apply _. Defined.
Global Instance repo_links_agree_dec t o : Decision (repo_links_agree t o).
Proof. unfold repo_links_agree. apply _. Defined.
Global Instance wf_config_dec c : Decision (wf c).
Proof.
  unfold wf, wf_config.
  refine (cast_if_and (decide (Forall wf (integrations c)))
    (match deploy_target c as o return
       Decision (∃ t, o = Some t ∧ Forall (repo_links_agree t) (starlight_of c))
     with
     | Some t => cast_if (decide (Forall (repo_links_agree t) (starlight_of c)))
     | None => right _
     end)); naive_solver.
Defined.

(** ** Labels *)

Global Instance SidebarLink_labelled : Labelled SidebarLink.
Proof. by intros l [? _]. Qed.
Global Instance SidebarGroup_labelled : Labelled SidebarGroup.
Proof. by intros g [? _]. Qed.
Global Instance SocialLink_labelled : Labelled SocialLink.
Proof. by intros k (_ & ? & _). Qed.

(** ** Slugs: lemmas *)

(** A well-formed slug is the join of its segments, and every join of
    well-formed segments is a well-formed slug. *)
Lemma wf_segment_no_slash w : wf_segment w → "/"%char ∉ chars w.
Proof.
  intros [_ Hall] Hin. rewrite Forall_forall in Hall.
  apply Hall in Hin. by rewrite slash_not_slug_char in Hin.
Qed.

Lemma wf_slug_join s :
  wf_slug s ↔ ∃ ws, ws ≠ [] ∧ Forall wf_segment ws ∧ s = join "/" ws.
Proof.
  unfold wf_slug. split.
  - intros H. exists (split_on "/" s).
    split_and!; [apply split_on_not_nil | done | by rewrite join_split].
  - intros (ws & Hne & Hall & ->). rewrite split_join; [done..|].
    eapply Forall_impl; [done|]. apply wf_segment_no_slash.
Qed.

Lemma wf_slug_not_empty s : wf_slug s → s ≠ "".
Proof. intros H ->. by apply Forall_cons in H as [[? _] _]. Qed.

Lemma wf_segment_slugify w : wf_segment w → slugify w = w.
Proof. intros [_ ?]. by apply slugify_fixed. Qed.

(** A slug with a directory is the directory, a slash and the rest. *)
Lemma slug_dir_Some s d :
  slug_dir s = Some d → ∃ r, s = d +:+ "/" +:+ r ∧ "/"%char ∉ chars d.
Proof.
  unfold slug_dir. intros H.
  pose proof (join_split "/" s) as Hj.
  pose proof (split_on_no_sep_inside "/" s) as Hall.
  destruct (split_on "/" s) as [|d' [|w ws]]; simplify_eq/=.
  apply Forall_cons in Hall as [Hd _].
  exists (join "/" (w :: ws)). done.
Qed.

(** ** Consequences of the invariant *)

Lemma wf_sidebar_group sb g : wf sb → g ∈ sb → wf g.
Proof. intros (Hall & _) Hg. rewrite Forall_forall in Hall. auto. Qed.

Lemma wf_group_link g l : wf g → l ∈ items g → wf l ∧ in_group_dir g l.
Proof.
  intros (_ & _ & Hwf & Hdir) Hl. rewrite Forall_forall in Hwf, Hdir. auto.
Qed.

Lemma wf_sidebar_link sb l : wf sb → l ∈ sidebar_links sb → wf l.
Proof.
  intros Hsb (g & Hg & Hl)%elem_of_sidebar_links.
  eapply wf_group_link; [by eapply wf_sidebar_group | done].
Qed.

Lemma wf_sidebar_slugs sb : wf sb → Forall wf_slug (sidebar_slugs sb).
Proof.
  intros Hsb. unfold sidebar_slugs. rewrite Forall_fmap, Forall_forall.
  intros l Hl. by apply (wf_sidebar_link sb l Hsb Hl).
Qed.

Lemma wf_sidebar_NoDup sb : wf sb → NoDup (sidebar_slugs sb).
Proof. by intros (_ & _ & ?). Qed.

(** Groups of a well-formed sidebar with the same label are the same group. *)
Lemma wf_sidebar_label_inj sb g1 g2 :
  wf sb → g1 ∈ sb → g2 ∈ sb → label g1 = label g2 → g1 = g2.
Proof.
  intros (_ & Hnd & _) H1 H2 Heq.
  pose proof (list_find_key group_dir sb g1 Hnd H1) as E1.
  pose proof (list_find_key group_dir sb g2 Hnd H2) as E2.
  unfold group_dir in E1, E2.
  change (group_label g1 = group_label g2) in Heq. rewrite Heq in E1.
  congruence.
Qed.

(** Everything a well-formed sidebar shows has a label. *)
Lemma wf_sidebar_labels sb :
  wf sb →
  Forall (λ g, label g ≠ "") sb ∧ Forall (λ l, label l ≠ "") (sidebar_links sb).
Proof.
  intros Hsb. split; [by apply Forall_wf_label, Hsb|].
  apply Forall_wf_label, Forall_forall. intros l Hl.
  by eapply wf_sidebar_link.
Qed.

Lemma wf_config_starlight c o : wf c → o ∈ starlight_of c → wf o.
Proof.
  intros [Hall _] (i & -> & Hi)%list_elem_of_fmap.
  rewrite Forall_forall in Hall. specialize (Hall i Hi). by destruct i.
Qed.

Lemma wf_config_target c : wf c → is_Some (deploy_target c).
Proof. intros (_ & t & -> & _). eauto. Qed.

(** In a well-formed configuration every link with the [github] icon points
    to the repository the site is deployed for. *)
Lemma wf_config_repo_link c o k owner repo :
  wf c → deploy_target c = Some (owner, repo) →
  o ∈ starlight_of c → k ∈ social o → icon k = "github" →
  href k = repo_url owner repo.
Proof.
  intros (_ & t & Ht & Hall) Ht' Ho Hk Hicon. simplify_eq.
  rewrite Forall_forall in Hall. specialize (Hall o Ho).
  unfold repo_links_agree in Hall. rewrite Forall_forall in Hall.
  by apply Hall.
Qed.

(** ** Conventions: lemmas *)

(** A well-formed slug of depth two is a directory and a page name. *)
Lemma slug_depth_two s :
  wf_slug s → slug_depth s = 2 →
  ∃ d w, wf_segment d ∧ wf_segment w ∧ s = d +:+ "/" +:+ w.
Proof.
  unfold wf_slug, slug_depth. intros Hwf Hlen.
  pose proof (join_split "/" s) as Hj.
  destruct (split_on "/" s) as [|d [|w [|? ?]]]; simplify_eq/=.
  apply Forall_cons in Hwf as [Hd [Hw _]%Forall_cons]. by exists d, w.
Qed.

(** A flat, well-formed link of a group that is not the home page is a page
    directly in the directory of the group. *)
Lemma flat_link_slug g l :
  wf l → in_group_dir g l → flat_slug (slug l) → slug l ≠ home_slug →
  ∃ w, wf_segment w ∧ slug l = group_dir g +:+ "/" +:+ w.
Proof.
  intros [_ Hwf] [?|Hdir] [?|Hdepth] ?; try done.
  destruct (slug_depth_two _ Hwf Hdepth) as (d & w & Hd & Hw & Hs).
  exists w. split; [done|]. rewrite Hs in Hdir |- *.
  unfold slug_dir in Hdir.
  change (d +:+ "/" +:+ w) with (d +:+ String "/" w) in Hdir.
  rewrite split_on_app_sep in Hdir by by apply wf_segment_no_slash.
  destruct (split_on "/" w) eqn:E; [by apply split_on_not_nil in E|].
  by simplify_eq/=.
Qed.

(** A label in title case has no empty word: it is not empty, and it has no
    space at either end and no two spaces in a row. *)
Lemma title_case_words s : title_case s → Forall (λ w, w ≠ "") (split_on " " s).
Proof. intros H. eapply Forall_impl; [exact H|]. by intros w Hw ->. Qed.

Lemma title_case_not_empty s : title_case s → s ≠ "".
Proof. intros H ->. by apply Forall_cons in H as [? _]. Qed.

(** The invariant asks that a link with the [github] icon points to the
    repository.  The convention gives the converse: a link to a repository
    whose icon names its service has the [github] icon. *)
Lemma repo_link_icon k o r :
  icon_names_service k → href k = repo_url o r → icon k = "github".
Proof.
  intros [_ Hhost] Hhref. rewrite Hhref, url_host_repo_url in Hhost.
  injection Hhost as Hhost. apply (string_app_inj_r _ _ ".com").
  by rewrite <-Hhost.
Qed.

#[export] Hint Resolve wf_sidebar_NoDup wf_sidebar_link wf_sidebar_group
  wf_config_starlight : site.
