(* ===== verification/SiteProps.v ===== *)
(** * The configuration of the repository

    The theorems about the configuration that [src/docs/astro.config.mjs]
    exports.  Each is a closed statement about the literals of [SiteConfig]:
    a clause of the invariant of [SiteWf], the whole invariant, an agreement
    between fields of the file, or a convention the file follows.  They are
    decided by evaluation of their statement (C6 follows from the invariant
    through the [Labelled] interface), and each fails when a literal it
    speaks of is written wrongly. *)

From S2P Require Import Prelude Strings SiteConfig Sidebar Deploy SiteWf.
From stdpp Require Import options.

Implicit Types (g : SidebarGroup) (l : SidebarLink) (s : string).

(** ** The invariant on the literals *)

(** C1.  No slug occurs twice in the sidebar: the fourteen links of the four
    groups name fourteen different pages. *)
Theorem sidebar_slugs_distinct : NoDup (sidebar_slugs sidebar_groups).
Proof. by_compute. Qed.

(** C2.  Every slug of the sidebar is well formed: one or more non-empty
    segments of lower-case letters, digits and hyphens, separated by single
    slashes, with no slash at either end. *)
Theorem sidebar_slugs_well_formed : Forall wf_slug (sidebar_slugs sidebar_groups).
Proof. by_compute. Qed.

(** C3.  Every link of a group lies in the directory named after the group
    (the label in lower case with hyphens for spaces), the home page
    [index] apart. *)
Theorem links_in_group_directory :
  Forall (λ g, Forall (in_group_dir g) (items g)) sidebar_groups.
Proof. by_compute. Qed.

(** C4.  [site] and [base] name the GitHub Pages project of the repository
    the social link points to: owner [brequet], repository [tedlt]. *)
Theorem deploys_to_repository :
  deploy_target config = Some ("brequet", "tedlt") ∧
  href github_link = repo_url "brequet" "tedlt".
Proof. split; by vm_compute. Qed.

(** C5.  The exported configuration is well formed: labels, titles and icons
    are present, groups are not empty and have distinct directories, the
    social link is an https address, the style sheet is a relative [.css]
    path, and the three properties above hold. *)
Theorem config_well_formed : wf config.
Proof. by_compute. Qed.

(** ** Shared facts *)

Lemma sidebar_groups_wf : wf sidebar_groups.
Proof. by_compute. Qed.

(** ** Labels *)

(** C6.  Every group, every link and every social link of the configuration
    has a label to show. *)
Theorem entries_have_labels :
  Forall (λ g, label g ≠ "") sidebar_groups ∧
  Forall (λ l, label l ≠ "") (sidebar_links sidebar_groups) ∧
  Forall (λ k, label k ≠ "") social_links.
Proof.
  destruct (wf_sidebar_labels sidebar_groups sidebar_groups_wf) as [Hg Hl].
  split_and!; [done..|]. apply Forall_wf_label. by_compute.
Qed.

(** C7.  No two links of the sidebar carry the same label: a reader who
    picks a page by its name finds one page.  An entry copied and given a
    new slug, its label left as it was, breaks this. *)
Theorem sidebar_labels_distinct : NoDup (sidebar_labels sidebar_groups).
Proof. by_compute. Qed.

(** C8.  Every label of the configuration (groups, links, social links) is
    in title case: words that start with a capital letter, separated by
    single spaces, with no space at either end. *)
Theorem labels_in_title_case :
  Forall (λ g, title_case (label g)) sidebar_groups ∧
  Forall (λ l, title_case (label l)) (sidebar_links sidebar_groups) ∧
  Forall (λ k, title_case (label k)) social_links.
Proof. split_and!; by_compute. Qed.

(** ** Layout *)

(** C9.  The pages are laid out flat: every slug of the sidebar is the home
    page or has two segments, a directory and a page name, so that no page
    lies deeper than the directory of its group. *)
Theorem pages_one_directory_deep :
  Forall flat_slug (sidebar_slugs sidebar_groups).
Proof. by_compute. Qed.

(** ** Title *)

(** C10.  The title of the site is the name of the repository it is deployed
    for. *)
Theorem title_is_repository_name :
  snd <$> deploy_target config = Some (title starlight_options).
Proof. by vm_compute. Qed.

(** ** Social links *)

(** C11.  The icon of every social link names the service the link points
    to: it is the label in lower case, and the address is on the host of
    that name, [github.com] for the icon [github]. *)
Theorem social_icons_name_service : Forall icon_names_service social_links.
Proof. by_compute. Qed.
