(* ===== verification/Profile.v ===== *)
(** * Profiles and the profile resolver

    The engine's profile document model and its profile resolver, written
    from the specification (sections 3, 4.1, 6 and 7); the code of the engine
    is not among the sources, so nothing here translates source lines.

    A profile has a name, an optional parent and a mapping from property keys
    to raw values.  The loaded profiles are a finite map from names to
    profiles.  [resolve_profile] walks the parent references from the target
    to a root, keeping the names it has visited; it fails with
    [CyclicInheritanceError] when a name comes back and with
    [UnknownProfileError] when a name is not loaded; otherwise it merges the
    properties from the root to the target, later values overwriting earlier
    ones, and returns the merged mapping with the chain of names.

    The walk recurses on fuel.  [resolve_chain] gives it one more than the
    number of loaded profiles; [ancestors_fuel] shows that this is never
    exhausted, and [resolve_chain_Ok], [resolve_chain_unknown] and
    [resolve_chain_cyclic] characterise the three outcomes without fuel. *)

From stdpp Require Import gmap.
From S2P Require Import Prelude.
From stdpp Require Import options.

(** ** Data *)

Record Profile := {
  name : string;
  parent : option string;
  properties : gmap string string;
}.

(** The error kinds of the engine (section 7). *)
Inductive Error :=
| UnknownProfileError (profile : string)
| CyclicInheritanceError (cycle : list string)
| UnresolvedReferenceError (key property : string)
| CyclicTemplateReferenceError (cycle : list string)
| TemplateRecursionLimitError (property : string)
| MissingRequiredFieldError (field : string)
| UnknownFieldError (field : string)
| InvalidValueError (field value : string) (allowed : list string)
| MissingTitleError.

Global Instance Profile_eq_dec : EqDecision Profile.
Proof. solve_decision. Defined.
Global Instance Error_eq_dec : EqDecision Error.
Proof. solve_decision. Defined.

Implicit Types (ps : gmap string Profile) (p : Profile) (n q k : string).
Implicit Types (visited : list string) (chain : list Profile).
Implicit Types (m ov : gmap string string).

(** The loaded set, from the documents the loader hands over: each profile
    under its name (of two documents with one name the first is kept). *)
Definition index_profiles (docs : list Profile) : gmap string Profile :=
  list_to_map ((λ p, (name p, p)) <$> docs).

(** ** The resolver *)

(** The cycle closed by meeting [n] again: the visited names from the first
    occurrence of [n] on, and [n]. *)
Definition cycle_of visited n : list string :=
  drop_to n visited ++ [n].

(** The ancestor walk from [n]: the chain from the root to [n], or the error
    met on the way.  [visited] holds the names walked through so far, oldest
    first.  [None] means that the fuel ran out. *)
Fixpoint ancestors (fuel : nat) ps visited n :
    option (result Error (list Profile)) :=
  match fuel with
  | 0 => None
  | S fuel' =>
      if decide (n ∈ visited) then
        Some (Err (CyclicInheritanceError (cycle_of visited n)))
      else
        match ps !! n with
        | None => Some (Err (UnknownProfileError n))
        | Some p =>
            match parent p with
            | None => Some (Ok [p])
            | Some q =>
                r ← ancestors fuel' ps (visited ++ [n]) q;
                Some (c ← r; Ok (c ++ [p]))
            end
        end
  end.

Definition resolve_chain ps n : result Error (list Profile) :=
  default (Err (CyclicInheritanceError []))
    (ancestors (S (size ps)) ps [] n).

(** Last writer wins along the chain, root first. *)
Definition merge_chain chain : gmap string string :=
  foldl (λ acc p, properties p ∪ acc) ∅ chain.

(** The resolver: the merged, still unresolved property set and the chain of
    names, root first. *)
Definition resolve_profile ps n :
    result Error (gmap string string * list string) :=
  c ← resolve_chain ps n; Ok (merge_chain c, name <$> c).

(** Explicit overrides are the most specific layer: applied on the merged
    set, before template resolution (section 6). *)
Definition apply_overrides ov m : gmap string string := ov ∪ m.

(** The value a profile inherits for a key: the value of the first profile
    that sets it, going from the profile towards the root.  [l] lists the
    profiles target first. *)
Fixpoint inherited (l : list Profile) k : option string :=
  match l with
  | [] => None
  | p :: l' =>
      match properties p !! k with
      | Some v => Some v
      | None => inherited l' k
      end
  end.

(** ** The profiles of the specification's examples (section 8) *)

Definition ex_base : Profile :=
  {| name := "base"; parent := None; properties := {["a" := "1"]} |}.
Definition ex_team : Profile :=
  {| name := "team"; parent := Some "base";
     properties := {["a" := "2"; "b" := "1"]} |}.
Definition ex_personal : Profile :=
  {| name := "personal"; parent := Some "team";
     properties := {["b" := "2"]} |}.
Definition ex_x : Profile :=
  {| name := "x"; parent := Some "y"; properties := ∅ |}.
Definition ex_y : Profile :=
  {| name := "y"; parent := Some "x"; properties := ∅ |}.
Definition ex_orphan : Profile :=
  {| name := "orphan"; parent := Some "missing"; properties := ∅ |}.

(** ** The inheritance relation *)

(** [lineage ps n l]: [l] is the profile named [n], its parent, the parent
    of that, and so on up to a root. *)
Inductive lineage ps : string → list Profile → Prop :=
| lineage_root n p :
    ps !! n = Some p → parent p = None → lineage ps n [p]
| lineage_step n p q l :
    ps !! n = Some p → parent p = Some q → lineage ps q l →
    lineage ps n (p :: l).

(** [reaches ps n path q]: following parent references from [n] through the
    names [path] (which starts with [n] when it is not empty) arrives at the
    name [q]. *)
Inductive reaches ps : string → list string → string → Prop :=
| reaches_here n : reaches ps n [] n
| reaches_step n p q path r :
    ps !! n = Some p → parent p = Some q → reaches ps q path r →
    reaches ps n (n :: path) r.

(** Names agree with the keys of the loaded set. *)
Definition names_consistent ps : Prop :=
  ∀ k p, ps !! k = Some p → name p = k.

(** ** Fuel *)

(** Distinct loaded names are no more than the loaded profiles. *)
Lemma visited_bound ps visited :
  NoDup visited → (∀ k, k ∈ visited → is_Some (ps !! k)) →
  length visited ≤ size ps.
Proof.
  intros Hnd Hin. rewrite <-(size_dom (D:=gset string)).
  rewrite <-(size_list_to_set (C:=gset string) visited) by done.
  apply subseteq_size. intros k Hk%elem_of_list_to_set.
  by apply elem_of_dom, Hin.
Qed.

(** The walk does not run out of fuel when it has more than the number of
    loaded profiles not yet visited. *)
Lemma ancestors_fuel fuel ps visited n :
  NoDup visited → (∀ k, k ∈ visited → is_Some (ps !! k)) →
  size ps < fuel + length visited →
  is_Some (ancestors fuel ps visited n).
Proof.
  revert visited n. induction fuel as [|fuel IH]; intros visited n Hnd Hin Hlt.
  - pose proof (visited_bound ps visited Hnd Hin). lia.
  - simpl. case_decide as Hn; [done|].
    destruct (ps !! n) as [p|] eqn:Hp; [|done].
    destruct (parent p) as [q|]; [|done].
    destruct (IH (visited ++ [n]) q) as [r ->]; [| | |done].
    + apply NoDup_app. split_and!; [done| |apply NoDup_singleton].
      intros k ? E%list_elem_of_singleton. by subst.
    + intros k [?|E%list_elem_of_singleton]%elem_of_app; subst; eauto.
    + rewrite length_app. simpl. lia.
Qed.

(** More fuel does not change a result. *)
Lemma ancestors_more_fuel fuel fuel' ps visited n r :
  ancestors fuel ps visited n = Some r → fuel ≤ fuel' →
  ancestors fuel' ps visited n = Some r.
Proof.
  revert fuel' visited n r.
  induction fuel as [|fuel IH]; intros fuel' visited n r Hr Hle; [done|].
  destruct fuel' as [|fuel']; [lia|]. simpl in *.
  case_decide; [done|]. destruct (ps !! n) as [p|]; [|done].
  destruct (parent p) as [q|]; [|done].
  destruct (ancestors fuel ps (visited ++ [n]) q) as [r'|] eqn:E; [|done].
  by rewrite (IH fuel' _ _ r' E) by lia.
Qed.

(** The resolver's walk always returns. *)
Lemma resolve_chain_returns ps n :
  is_Some (ancestors (S (size ps)) ps [] n).
Proof.
  apply ancestors_fuel; [constructor|by intros ? ?%elem_of_nil|simpl; lia].
Qed.

Lemma resolve_chain_eq ps n r :
  resolve_chain ps n = r ↔ ancestors (S (size ps)) ps [] n = Some r.
Proof.
  unfold resolve_chain. destruct (resolve_chain_returns ps n) as [r' ->].
  simpl. split; congruence.
Qed.

(** ** Success: the chain is the lineage of the target *)

Lemma lineage_functional ps n l1 l2 :
  lineage ps n l1 → lineage ps n l2 → l1 = l2.
Proof.
  intros H1. revert l2.
  induction H1 as [n p Hp Hpar|n p q l Hp Hpar Hl IH]; intros l2 H2;
    inversion H2; simplify_eq; [done|]. f_equal. auto.
Qed.

Lemma ancestors_Ok fuel ps visited n c :
  ancestors fuel ps visited n = Some (Ok c) → lineage ps n (reverse c).
Proof.
  revert visited n c.
  induction fuel as [|fuel IH]; intros visited n c H; [done|].
  simpl in H. case_decide; [done|].
  destruct (ps !! n) as [p|] eqn:Hp; [|done].
  destruct (parent p) as [q|] eqn:Hq; simplify_eq/=.
  - destruct (ancestors fuel ps (visited ++ [n]) q) as [[c'|e]|] eqn:E;
      simplify_eq/=.
    rewrite reverse_snoc. eapply lineage_step; eauto.
  - by apply lineage_root.
Qed.

(** When every visited name lies deeper than [n], the walk from [n] does not
    meet a visited name and returns the lineage. *)
Lemma ancestors_complete ps n l :
  lineage ps n l → ∀ fuel visited,
  (∀ k l', k ∈ visited → lineage ps k l' → length l < length l') →
  length l ≤ fuel →
  ancestors fuel ps visited n = Some (Ok (reverse l)).
Proof.
  induction 1 as [n p Hp Hpar|n p q l Hp Hpar Hl IH];
    intros fuel visited Hinv Hfuel;
    (destruct fuel as [|fuel]; [simpl in *; lia|]); simpl in *.
  - rewrite decide_False, Hp, Hpar; [done|]. intros Hin.
    specialize (Hinv n [p] Hin (lineage_root _ _ _ Hp Hpar)). simpl in *. lia.
  - pose proof (lineage_step _ _ _ _ _ Hp Hpar Hl) as Hn.
    rewrite decide_False, Hp, Hpar; last first.
    { intros Hin. specialize (Hinv n _ Hin Hn). simpl in *. lia. }
    rewrite (IH fuel (visited ++ [n])); [by rewrite reverse_cons| |lia].
    intros k l' [Hk|Hk%list_elem_of_singleton]%elem_of_app Hl'.
    + specialize (Hinv k l' Hk Hl'). lia.
    + subst. rewrite (lineage_functional _ _ _ _ Hl' Hn). simpl. lia.
Qed.

(** The resolver succeeds exactly when the target has a lineage up to a
    root, and then returns it, root first. *)
Theorem resolve_chain_Ok ps n c :
  resolve_chain ps n = Ok c ↔ lineage ps n (reverse c).
Proof.
  rewrite resolve_chain_eq. split; [apply ancestors_Ok|]. intros Hl.
  destruct (resolve_chain_returns ps n) as [r Hr]. rewrite Hr. f_equal.
  apply (ancestors_more_fuel _ (S (size ps) + length c)) in Hr; [|lia].
  rewrite (ancestors_complete ps n _ Hl) in Hr.
  - rewrite reverse_involutive in Hr. congruence.
  - by intros ?? ?%elem_of_nil.
  - rewrite length_reverse. lia.
Qed.

(** ** Failure: the errors name what is wrong *)

Lemma reaches_snoc ps a path b p q :
  reaches ps a path b → ps !! b = Some p → parent p = Some q →
  reaches ps a (path ++ [b]) q.
Proof.
  induction 1; intros; simpl; econstructor; eauto. constructor.
Qed.

Lemma reaches_drop_to ps a path b x :
  reaches ps a path b → x ∈ path → reaches ps x (drop_to x path) b.
Proof.
  induction 1 as [|n p q path r Hp Hpar Hr IH]; [by intros ?%elem_of_nil|].
  simpl. case_decide; subst; [intros _; econstructor; eauto|].
  intros [?|?]%elem_of_cons; [congruence|auto].
Qed.

Lemma ancestors_unknown fuel ps visited start n k :
  reaches ps start visited n →
  ancestors fuel ps visited n = Some (Err (UnknownProfileError k)) →
  ∃ path, reaches ps start path k ∧ ps !! k = None.
Proof.
  revert visited n.
  induction fuel as [|fuel IH]; intros visited n Hv H; [done|].
  simpl in H. case_decide; [done|].
  destruct (ps !! n) as [p|] eqn:Hp; [|simplify_eq; eauto].
  destruct (parent p) as [q|] eqn:Hq; [|done].
  destruct (ancestors fuel ps (visited ++ [n]) q) as [[c'|e]|] eqn:E;
    simplify_eq/=.
  eapply IH; [|done]. by eapply reaches_snoc.
Qed.

Lemma ancestors_cyclic fuel ps visited start n cyc :
  reaches ps start visited n →
  ancestors fuel ps visited n = Some (Err (CyclicInheritanceError cyc)) →
  ∃ k pre path, path ≠ [] ∧ cyc = path ++ [k] ∧
    reaches ps start pre k ∧ reaches ps k path k.
Proof.
  revert visited n.
  induction fuel as [|fuel IH]; intros visited n Hv H; [done|].
  simpl in H. case_decide as Hin.
  - simplify_eq. exists n, visited, (drop_to n visited).
    split_and!; [by apply drop_to_not_nil|done|done|by eapply reaches_drop_to].
  - destruct (ps !! n) as [p|] eqn:Hp; [|done].
    destruct (parent p) as [q|] eqn:Hq; [|done].
    destruct (ancestors fuel ps (visited ++ [n]) q) as [[c'|e]|] eqn:E;
      simplify_eq/=.
    eapply IH; [|done]. by eapply reaches_snoc.
Qed.

(** [UnknownProfileError k]: the parent references from the target lead to
    the name [k], and no profile of that name is loaded. *)
Theorem resolve_chain_unknown ps n k :
  resolve_chain ps n = Err (UnknownProfileError k) →
  ∃ path, reaches ps n path k ∧ ps !! k = None.
Proof.
  rewrite resolve_chain_eq. apply ancestors_unknown. constructor.
Qed.

(** [CyclicInheritanceError cyc]: the parent references from the target lead
    to a name [k] from which they come back to [k]; [cyc] lists the names of
    that cycle, starting and ending with [k]. *)
Theorem resolve_chain_cyclic ps n cyc :
  resolve_chain ps n = Err (CyclicInheritanceError cyc) →
  ∃ k pre path, path ≠ [] ∧ cyc = path ++ [k] ∧
    reaches ps n pre k ∧ reaches ps k path k.
Proof.
  rewrite resolve_chain_eq. apply ancestors_cyclic. constructor.
Qed.

(** The resolver raises no other error. *)
Theorem resolve_chain_errors ps n e :
  resolve_chain ps n = Err e →
  (∃ k, e = UnknownProfileError k) ∨ (∃ cyc, e = CyclicInheritanceError cyc).
Proof.
  rewrite resolve_chain_eq. generalize (S (size ps)) (@nil string).
  intros fuel. revert n e.
  induction fuel as [|fuel IH]; intros n e visited H; [done|].
  simpl in H. case_decide; [simplify_eq; eauto|].
  destruct (ps !! n) as [p|]; [|simplify_eq; eauto].
  destruct (parent p) as [q|]; [|done].
  destruct (ancestors fuel ps (visited ++ [n]) q) as [[c'|e']|] eqn:E;
    simplify_eq/=. eauto.
Qed.

(** ** The merge *)

Lemma merge_chain_snoc c p :
  merge_chain (c ++ [p]) = properties p ∪ merge_chain c.
Proof. unfold merge_chain. by rewrite foldl_app. Qed.

(** The merged set holds, for every key, the value of the most specific
    profile of the chain that sets it. *)
Theorem merge_chain_inherited c k :
  merge_chain c !! k = inherited (reverse c) k.
Proof.
  induction c as [|p c IH] using rev_ind; [done|].
  rewrite merge_chain_snoc, reverse_snoc, lookup_union. simpl.
  rewrite IH. destruct (properties p !! k), (inherited (reverse c) k); done.
Qed.

Lemma merge_chain_target_wins c p k v :
  properties p !! k = Some v → merge_chain (c ++ [p]) !! k = Some v.
Proof. intros H. by rewrite merge_chain_inherited, reverse_snoc; simpl; rewrite H. Qed.

Lemma merge_chain_target_silent c p k :
  properties p !! k = None → merge_chain (c ++ [p]) !! k = merge_chain c !! k.
Proof.
  intros H. rewrite !merge_chain_inherited, reverse_snoc. simpl. by rewrite H.
Qed.

(** A profile with no properties contributes nothing. *)
Lemma merge_chain_empty c p :
  properties p = ∅ → merge_chain (c ++ [p]) = merge_chain c.
Proof. intros H. by rewrite merge_chain_snoc, H, (left_id_L ∅ (∪)). Qed.

Lemma inherited_Some l k v :
  inherited l k = Some v ↔
  ∃ i p, l !! i = Some p ∧ properties p !! k = Some v ∧
    ∀ j p', j < i → l !! j = Some p' → properties p' !! k = None.
Proof.
  induction l as [|p l IH]; simpl.
  - split; [done|]. by intros (i & p & ? & _).
  - destruct (properties p !! k) as [v'|] eqn:Hp.
    + split.
      * intros ?. simplify_eq. exists 0, p. split_and!; [done..|]. lia.
      * intros ([|i] & p' & Hi & Hv & Hmin); simplify_eq/=; [congruence|].
        specialize (Hmin 0 p ltac:(lia) eq_refl). congruence.
    + rewrite IH. split.
      * intros (i & p' & Hi & Hv & Hmin). exists (S i), p'.
        split_and!; [done..|]. intros [|j] p'' ??; simplify_eq/=; [done|].
        eapply Hmin; [|done]. lia.
      * intros ([|i] & p' & Hi & Hv & Hmin); simplify_eq/=.
        exists i, p'. split_and!; [done..|]. intros j p'' ??.
        apply (Hmin (S j)); [lia|done].
Qed.

Lemma inherited_None l k :
  inherited l k = None ↔ Forall (λ p, properties p !! k = None) l.
Proof.
  induction l as [|p l IH]; simpl; [by split; [constructor|]|].
  rewrite Forall_cons, <-IH. destruct (properties p !! k); naive_solver.
Qed.

(** The keys of the merged set are the keys set anywhere on the chain. *)
Lemma merge_chain_dom c k :
  is_Some (merge_chain c !! k) ↔ ∃ p, p ∈ c ∧ is_Some (properties p !! k).
Proof.
  induction c as [|p c IH] using rev_ind.
  - unfold merge_chain. simpl. rewrite lookup_empty. split.
    + by intros [? ?].
    + by intros (p & ?%elem_of_nil & _).
  - rewrite merge_chain_snoc, lookup_union_is_Some, IH.
    setoid_rewrite elem_of_app. setoid_rewrite list_elem_of_singleton.
    naive_solver.
Qed.

Lemma apply_overrides_lookup ov m k :
  apply_overrides ov m !! k =
  match ov !! k with Some v => Some v | None => m !! k end.
Proof.
  unfold apply_overrides. rewrite lookup_union.
  destruct (ov !! k), (m !! k); done.
Qed.

(** ** The resolver *)

(** The resolver's result: the lineage of the target, merged; every key has
    the value the target inherits for it, and the names are those of the
    lineage, root first. *)
Theorem resolve_profile_Ok ps n m names :
  resolve_profile ps n = Ok (m, names) ↔
  ∃ l, lineage ps n l ∧ m = merge_chain (reverse l) ∧
    names = name <$> reverse l.
Proof.
  unfold resolve_profile. split.
  - destruct (resolve_chain ps n) as [c|e] eqn:Hc; simpl; [|done].
    intros [= <- <-]. apply resolve_chain_Ok in Hc.
    exists (reverse c). by rewrite reverse_involutive.
  - intros (l & Hl & -> & ->).
    rewrite <-(reverse_involutive l) in Hl. apply resolve_chain_Ok in Hl.
    by rewrite Hl.
Qed.

Corollary resolve_profile_lookup ps n m names k :
  resolve_profile ps n = Ok (m, names) →
  ∃ l, lineage ps n l ∧ m !! k = inherited l k.
Proof.
  intros (l & Hl & -> & _)%resolve_profile_Ok. exists l. split; [done|].
  by rewrite merge_chain_inherited, reverse_involutive.
Qed.

(** A profile with no parent is its own chain. *)
Theorem resolve_profile_root ps n p :
  ps !! n = Some p → parent p = None →
  resolve_profile ps n = Ok (properties p, [name p]).
Proof.
  intros Hp Hpar. apply resolve_profile_Ok. exists [p].
  split_and!; [by constructor| |done].
  unfold merge_chain. simpl. by rewrite (right_id_L ∅ (∪)).
Qed.

(** The resolver never returns a partial result: it fails when the target is
    not loaded. *)
Theorem resolve_profile_unloaded ps n :
  ps !! n = None → resolve_profile ps n = Err (UnknownProfileError n).
Proof.
  intros Hn. unfold resolve_profile, resolve_chain. simpl. by rewrite Hn.
Qed.

(** ** The loaded set *)

Lemma index_profiles_lookup docs k p :
  index_profiles docs !! k = Some p → p ∈ docs ∧ name p = k.
Proof.
  unfold index_profiles. intros H%elem_of_list_to_map_2.
  apply list_elem_of_fmap in H as (p' & [= -> ->] & ?). done.
Qed.

Lemma index_profiles_consistent docs : names_consistent (index_profiles docs).
Proof. intros k p H. by apply index_profiles_lookup in H as [_ ?]. Qed.

(** With distinct names every document is loaded under its name. *)
Lemma index_profiles_complete docs p :
  NoDup (name <$> docs) → p ∈ docs → index_profiles docs !! name p = Some p.
Proof.
  intros Hnd Hp. unfold index_profiles. apply elem_of_list_to_map_1.
  - by rewrite <-list_fmap_compose.
  - apply list_elem_of_fmap. eauto.
Qed.

(** ** Cycle detection is complete *)

Lemma reaches_det ps n (path1 path2 : list string) a b :
  reaches ps n path1 a → reaches ps n path2 b → length path1 ≤ length path2 →
  reaches ps a (drop (length path1) path2) b.
Proof.
  intros H1. revert path2. induction H1 as [|n p q path r Hp Hpar Hr IH];
    intros path2 H2 Hle; [done|].
  inversion H2; simplify_eq/=; [lia|]. apply IH; [done|lia].
Qed.

Lemma reaches_loaded ps n path k :
  reaches ps n path k → path ≠ [] → is_Some (ps !! n).
Proof. by destruct 1; eauto. Qed.

Lemma reaches_from_unloaded ps k path k' :
  reaches ps k path k' → ps !! k = None → k' = k.
Proof. destruct 1; [done|congruence]. Qed.

(** Two walks from one name, the shorter ending at [a]: the longer one goes
    on from [a]. *)
Lemma reaches_split ps t (path1 path2 : list string) a b :
  reaches ps t path1 a → reaches ps t path2 b →
  (∃ path, reaches ps a path b) ∨ (∃ path, path ≠ [] ∧ reaches ps b path a).
Proof.
  intros H1 H2. destruct (decide (length path1 ≤ length path2)).
  - left. eexists. by eapply reaches_det.
  - right. exists (drop (length path2) path1). split.
    + intros E%(f_equal length). rewrite length_drop in E. simpl in E. lia.
    + eapply reaches_det; [done..|lia].
Qed.

Lemma lineage_reaches ps n l path k :
  lineage ps n l → reaches ps n path k →
  length path < length l ∧ lineage ps k (drop (length path) l).
Proof.
  intros Hl Hr. revert l Hl.
  induction Hr as [|n p q path r Hp Hpar Hr IH]; intros l Hl.
  - split; [|done]. destruct Hl; simpl; lia.
  - inversion Hl; simplify_eq/=.
    destruct (IH _ ltac:(eassumption)) as [??]. split; [lia|done].
Qed.

(** Every name met from a name that lies on a cycle is loaded. *)
Lemma cycle_all_loaded ps n path (pk : list string) k :
  reaches ps n path n → path ≠ [] → reaches ps n pk k → is_Some (ps !! k).
Proof.
  intros Hc Hne. remember (length pk) as j eqn:Hj. revert pk k Hj.
  induction (lt_wf j) as [j _ IH]. intros pk k -> Hk.
  destruct (decide (length path ≤ length pk)) as [Hle|Hgt].
  - eapply (IH (length (drop (length path) pk))); [|done|].
    + rewrite length_drop. destruct path; simpl in *; [done|lia].
    + by eapply reaches_det.
  - eapply reaches_loaded; [eapply (reaches_det _ _ pk path k n); [done..|lia]|].
    intros E%(f_equal length). rewrite length_drop in E. simpl in E. lia.
Qed.

(** A target whose parent references lead into a cycle fails with
    [CyclicInheritanceError], whichever name of the cycle it is or leads to. *)
Theorem cycle_detected ps t pre n path :
  reaches ps t pre n → reaches ps n path n → path ≠ [] →
  ∃ cyc, resolve_chain ps t = Err (CyclicInheritanceError cyc).
Proof.
  intros Hpre Hc Hne. destruct (resolve_chain ps t) as [c|e] eqn:E.
  - apply resolve_chain_Ok in E.
    destruct (lineage_reaches _ _ _ _ _ E Hpre) as [_ Hn].
    destruct (lineage_reaches _ _ _ _ _ Hn Hc) as [Hlt Hn'].
    pose proof (lineage_functional _ _ _ _ Hn Hn') as El.
    apply (f_equal length) in El. rewrite (length_drop _ (length path)) in El.
    destruct path; [by destruct Hne|simpl in *; lia].
  - destruct (resolve_chain_errors _ _ _ E) as [[k ->]|[cyc ->]]; [|eauto].
    apply resolve_chain_unknown in E as (pk & Hk & Hnone).
    assert (is_Some (ps !! k)) as [? ?]; [|congruence].
    destruct (reaches_split _ _ _ _ _ _ Hpre Hk) as [[? H]|(? & ? & H)].
    + by eapply cycle_all_loaded.
    + by eapply reaches_loaded.
Qed.

(** ** Detection of a missing parent is complete *)

(** A target whose parent references lead to a name that is not loaded fails
    with [UnknownProfileError] for that name. *)
Theorem unknown_detected ps t path k :
  reaches ps t path k → ps !! k = None →
  resolve_chain ps t = Err (UnknownProfileError k).
Proof.
  intros Hk Hnone. destruct (resolve_chain ps t) as [c|e] eqn:E.
  - apply resolve_chain_Ok in E.
    destruct (lineage_reaches _ _ _ _ _ E Hk) as [_ Hl].
    inversion Hl; congruence.
  - f_equal. destruct (resolve_chain_errors _ _ _ E) as [[k' ->]|[cyc ->]].
    + apply resolve_chain_unknown in E as (pk & Hk' & Hnone'). f_equal.
      destruct (reaches_split _ _ _ _ _ _ Hk Hk') as [[? H]|(? & _ & H)].
      * by apply reaches_from_unloaded in H.
      * symmetry. by apply reaches_from_unloaded in H.
    + apply resolve_chain_cyclic in E
        as (k' & pre & cpath & Hne & _ & Hpre & Hc).
      assert (is_Some (ps !! k)) as [? ?]; [|congruence].
      destruct (reaches_split _ _ _ _ _ _ Hpre Hk) as [[? H]|(? & ? & H)].
      * by eapply cycle_all_loaded.
      * by eapply reaches_loaded.
Qed.

(** ** The examples of the specification (section 8) *)

(** Inheritance precedence: base {a:1}, team {a:2, b:1}, personal {b:2}
    resolve to {a:2, b:2} with the chain base, team, personal. *)
Example inheritance_precedence :
  resolve_profile (index_profiles [ex_base; ex_team; ex_personal]) "personal" =
  Ok ({["a" := "2"; "b" := "2"]}, ["base"; "team"; "personal"]).
Proof. by_compute. Qed.

(** Cycle detection, whichever profile is the target. *)
Example cycle_from_x :
  resolve_profile (index_profiles [ex_x; ex_y]) "x" =
  Err (CyclicInheritanceError ["x"; "y"; "x"]).
Proof. by_compute. Qed.

Example cycle_from_y :
  resolve_profile (index_profiles [ex_x; ex_y]) "y" =
  Err (CyclicInheritanceError ["y"; "x"; "y"]).
Proof. by_compute. Qed.

(** A parent that is not loaded. *)
Example unknown_parent :
  resolve_profile (index_profiles [ex_orphan]) "orphan" =
  Err (UnknownProfileError "missing").
Proof. by_compute. Qed.

(** Explicit overrides are the most specific layer. *)
Example overrides_win :
  (λ r, apply_overrides {["a" := "9"]} r.1) <$>
    resolve_profile (index_profiles [ex_base; ex_team; ex_personal]) "personal" =
  Ok {["a" := "9"; "b" := "2"]}.
Proof. by_compute. Qed.

