(* ===== verification/Template.v ===== *)
(** * The template engine

    The engine's template engine, written from the specification (sections
    3, 4.2, 7 and 8); the code of the engine is not among the sources, so
    nothing here translates source lines.

    A raw value is text with placeholders [{{ key }}].  [parse] cuts it into
    literal text and keys; whitespace between the markers is dropped, and an
    opening marker that is never closed is literal text.  [resolve_key]
    gives a key its value: a property of the merged set is resolved in turn,
    anything else is read from the runtime context.  It keeps the stack of
    the properties being resolved and fails with
    [CyclicTemplateReferenceError] when a property comes back, with
    [TemplateRecursionLimitError] when the chain of references is deeper
    than [max_depth], and with [UnresolvedReferenceError] when a key is
    neither a property nor a context variable.  [resolve_all] resolves every
    property of the set.

    The specification leaves three points open, decided here as follows: a
    key that is both a property and a context variable is the property; an
    unresolved-reference and a depth error name the property whose value
    holds the placeholder; of several properties that fail, the engine
    returns the error of one of them.

    The recursion is on the depth, which is the bound of the specification
    and no fuel: every call returns.  The theorems: printing and parsing is
    the identity on canonical tokens; a set without placeholder is returned
    unchanged; the resolved set is the one fixed point of substitution, so
    the order in which the properties are processed does not matter; every
    error names a defect that is there; a property on a cycle never
    resolves. *)

From stdpp Require Import gmap.
From S2P Require Import Prelude Strings Profile.
From stdpp Require Import options.

Implicit Types (a b : ascii) (s v k p q x : string).
Implicit Types (m ctx rs σ : gmap string string) (stack : list string).

(** ** Template expressions *)

(** A parsed value: literal text and placeholders, in the order of the
    text. *)
Inductive Token :=
| Lit (text : string)
| Ref (key : string).

Global Instance Token_eq_dec : EqDecision Token.
Proof. solve_decision. Defined.

Implicit Types (t : Token) (ts : list Token).

(** Space, tab, line feed, carriage return. *)
Definition is_space a : bool :=
  bool_decide (a ∈ [" "; "009"; "010"; "013"]%char).

Definition opener a b : bool := bool_decide (a = "{" ∧ b = "{")%char.
Definition closer a b : bool := bool_decide (a = "}" ∧ b = "}")%char.

(** The key of the placeholder whose opening marker has just been read: the
    text up to the first closing marker, without its whitespace.  [None]
    when no closing marker follows. *)
Fixpoint find_close s : option string :=
  match s with
  | String a (String b _ as s') =>
      if closer a b then Some ""
      else k ← find_close s'; Some (if is_space a then k else String a k)
  | _ => None
  end.

(** One more character of literal text in front of the tokens [ts]. *)
Definition lit_cons a ts : list Token :=
  match ts with
  | Lit s :: ts' => Lit (String a s) :: ts'
  | _ => Lit (String a "") :: ts
  end.

(** The scanner reads literal text ([Text]) or passes over a placeholder
    whose key [find_close] has already returned ([Skip]). *)
Inductive Mode := Text | Skip.

Fixpoint scan (mode : Mode) s : list Token :=
  match s with
  | "" => []
  | String a s' =>
      match mode, s' with
      | Text, String b s'' =>
          if opener a b then
            match find_close s'' with
            | Some k => Ref k :: scan Skip s''
            | None => lit_cons a (scan Text s')
            end
          else lit_cons a (scan Text s')
      | Text, "" => [Lit (String a "")]
      | Skip, String b s'' =>
          if closer a b then scan Text s'' else scan Skip s'
      | Skip, "" => []
      end
  end.

(** An opening marker that is never closed is literal text. *)
Definition parse v : list Token := scan Text v.

Definition render_token t : string :=
  match t with
  | Lit s => s
  | Ref k => "{{" +:+ k +:+ "}}"
  end.

Definition render ts : string := foldr (λ t r, render_token t +:+ r) "" ts.

(** The keys a value refers to. *)
Definition refs ts : list string :=
  omap (λ t, match t with Ref k => Some k | Lit _ => None end) ts.

(** [s] holds an opening marker. *)
Fixpoint has_opener s : bool :=
  match s with
  | String a (String b _ as s') => opener a b || has_opener s'
  | _ => false
  end.

(** The tokens of a text without placeholder. *)
Definition lit s : list Token := if decide (s = "") then [] else [Lit s].

(** A key that [render] and [parse] keep: no whitespace and no closing
    brace. *)
Definition key_ok k : bool :=
  forallb (λ a, negb (is_space a) && negb (bool_decide (a = "}"%char)))
    (chars k).

(** Token lists that print and parse back: no empty literal, no two
    literals in a row, no opening marker inside a literal or made by a
    literal and the placeholder after it, keys that [key_ok] accepts. *)
Fixpoint canonical ts : bool :=
  match ts with
  | [] => true
  | Ref k :: ts' => key_ok k && canonical ts'
  | Lit s :: ts' =>
      bool_decide (s ≠ "") &&
      match ts' with
      | [] => negb (has_opener s)
      | Ref _ :: _ => negb (has_opener (s +:+ "{")) && canonical ts'
      | Lit _ :: _ => false
      end
  end.

(** ** Substitution *)

(** The value of the tokens when [f] gives the value of each key; the first
    key on which [f] fails gives the error. *)
Fixpoint expand (f : string → result Error string) ts : result Error string :=
  match ts with
  | [] => Ok ""
  | Lit s :: ts' => r ← expand f ts'; Ok (s +:+ r)
  | Ref k :: ts' => x ← f k; r ← expand f ts'; Ok (x +:+ r)
  end.

(** The value of the tokens under a finished assignment of the keys. *)
Fixpoint instantiate σ ts : option string :=
  match ts with
  | [] => Some ""
  | Lit s :: ts' => r ← instantiate σ ts'; Some (s +:+ r)
  | Ref k :: ts' => x ← σ !! k; r ← instantiate σ ts'; Some (x +:+ r)
  end.

(** ** Resolution *)

(** The bound on the depth of chained references. *)
Definition max_depth : nat := 10.

(** The value of the key [k], met in the value of the property [p].
    [stack] holds the properties whose values are being resolved, outermost
    first, [p] last; [depth] is how many more levels may be entered.  A
    property shadows a context variable of the same name. *)
Fixpoint resolve_key (depth : nat) m ctx stack p k : result Error string :=
  match m !! k with
  | Some v =>
      if decide (k ∈ stack) then
        Err (CyclicTemplateReferenceError (cycle_of stack k))
      else
        match depth with
        | 0 => Err (TemplateRecursionLimitError p)
        | S d => expand (resolve_key d m ctx (stack ++ [k]) k) (parse v)
        end
  | None =>
      match ctx !! k with
      | Some x => Ok x
      | None => Err (UnresolvedReferenceError k p)
      end
  end.

(** The resolved value of the property [p], whose raw value is [v]. *)
Definition resolve_property m ctx p v : result Error string :=
  expand (resolve_key max_depth m ctx [p] p) (parse v).

(** The template engine: every property resolved, or the error of one that
    does not resolve. *)
Definition resolve_all m ctx : result Error (gmap string string) :=
  map_traverse (resolve_property m ctx) m.

(** ** The reference graph *)

(** [refers m p k]: the value of the property [p] holds a placeholder for
    [k]. *)
Definition refers m p k : Prop :=
  ∃ v, m !! p = Some v ∧ k ∈ refs (parse v).

(** [rs] assigns to every property its value with the placeholders replaced
    by what [rs] and the context assign to their keys. *)
Definition fixed_point m ctx rs : Prop :=
  ∀ p, rs !! p = m !! p ≫= λ v, instantiate (rs ∪ ctx) (parse v).

(** Where the resolution of the key [k] in the value of [p] stops with an
    error. *)
Inductive raised m ctx :
    nat → list string → string → string → Error → Prop :=
| raised_cycle d stack p k :
    is_Some (m !! k) → k ∈ stack →
    raised m ctx d stack p k (CyclicTemplateReferenceError (cycle_of stack k))
| raised_limit stack p k :
    is_Some (m !! k) → k ∉ stack →
    raised m ctx 0 stack p k (TemplateRecursionLimitError p)
| raised_unresolved d stack p k :
    m !! k = None → ctx !! k = None →
    raised m ctx d stack p k (UnresolvedReferenceError k p).

(** The stack is a chain of references that ends in [p], and [p] refers to
    [k]. *)
Definition trail m stack p k : Prop :=
  path (refers m) (stack ++ [k]) ∧ last stack = Some p ∧ NoDup stack.

(** ** The examples of the specification (section 8) *)

Definition ex_props : gmap string string :=
  {[ "greeting" := "{{ name }}!"; "name" := "{{ title }}" ]}.
Definition ex_context : gmap string string := {[ "title" := "Fix bug" ]}.
Definition ex_cyclic : gmap string string :=
  {[ "a" := "{{ b }}"; "b" := "{{ a }}" ]}.

(** Twelve properties, each the next one. *)
Definition ex_chain : gmap string string :=
  {[ "a" := "{{b}}"; "b" := "{{c}}"; "c" := "{{d}}"; "d" := "{{e}}";
     "e" := "{{f}}"; "f" := "{{g}}"; "g" := "{{h}}"; "h" := "{{i}}";
     "i" := "{{j}}"; "j" := "{{k}}"; "k" := "{{l}}"; "l" := "end" ]}.

(** A value put together from braces. *)
Definition ex_braces : gmap string string :=
  {[ "open" := "{"; "summary" := "{{open}}{{open}} title }}" ]}.

(** ** Parsing: lemmas *)

Local Arguments String.append !_ _ / : simpl nomatch.

(** The computation rules of the scanner on a text of two characters or
    more. *)
Lemma scan_text_cons a b s :
  scan Text (String a (String b s)) =
  if opener a b then
    match find_close s with
    | Some k => Ref k :: scan Skip s
    | None => lit_cons a (scan Text (String b s))
    end
  else lit_cons a (scan Text (String b s)).
Proof. done. Qed.

Lemma scan_skip_cons a b s :
  scan Skip (String a (String b s)) =
  if closer a b then scan Text s else scan Skip (String b s).
Proof. done. Qed.

Lemma find_close_cons a b s :
  find_close (String a (String b s)) =
  if closer a b then Some ""
  else k ← find_close (String b s);
       Some (if is_space a then k else String a k).
Proof. done. Qed.

Lemma has_opener_cons a b s :
  has_opener (String a (String b s)) = opener a b || has_opener (String b s).
Proof. done. Qed.

Lemma closer_false a b : a ≠ "}"%char → closer a b = false.
Proof. intros. apply bool_decide_eq_false. by intros [? _]. Qed.

Lemma key_ok_cons a k :
  key_ok (String a k) → is_space a = false ∧ a ≠ "}"%char ∧ key_ok k.
Proof.
  unfold key_ok. simpl. intros [[Hs Ha]%andb_prop_elim Hk]%andb_prop_elim.
  apply negb_prop_elim in Hs, Ha. rewrite bool_decide_spec in Ha.
  by apply Is_true_false_1 in Hs.
Qed.

Lemma lit_cons_lit a s : s ≠ "" → lit_cons a (lit s) = lit (String a s).
Proof. intros. unfold lit. by rewrite decide_False, decide_False. Qed.

(** A value without opening marker is one literal. *)
Lemma scan_plain s : has_opener s = false → scan Text s = lit s.
Proof.
  induction s as [|a s IH]; [done|]. destruct s as [|b s]; [done|].
  rewrite has_opener_cons, scan_text_cons.
  intros [-> Hs]%orb_false_elim. rewrite IH by done. by apply lit_cons_lit.
Qed.

Lemma parse_plain v : has_opener v = false → parse v = lit v.
Proof. apply scan_plain. Qed.

(** Reading a well-formed key up to its closing marker. *)
Lemma find_close_key k s : key_ok k → find_close (k +:+ "}}" +:+ s) = Some k.
Proof.
  induction k as [|a k IH]; [done|].
  intros (Hs & Ha & Hk)%key_ok_cons. specialize (IH Hk).
  rewrite string_app_cons. destruct (k +:+ "}}" +:+ s) as [|b s'] eqn:Hks.
  { destruct k; discriminate. }
  rewrite find_close_cons, closer_false, IH by done. simpl. by rewrite Hs.
Qed.

Lemma scan_skip_key k s :
  key_ok k → scan Skip (k +:+ "}}" +:+ s) = scan Text s.
Proof.
  induction k as [|a k IH]; [done|].
  intros (_ & Ha & Hk)%key_ok_cons. specialize (IH Hk).
  rewrite string_app_cons. destruct (k +:+ "}}" +:+ s) as [|b s'] eqn:Hks.
  { destruct k; discriminate. }
  by rewrite scan_skip_cons, closer_false.
Qed.

Lemma scan_placeholder k s :
  key_ok k → scan Text ("{{" +:+ k +:+ "}}" +:+ s) = Ref k :: scan Text s.
Proof.
  intros Hk.
  change ("{{" +:+ k +:+ "}}" +:+ s)
    with (String "{" (String "{" (k +:+ "}}" +:+ s))).
  rewrite scan_text_cons. change (opener "{" "{") with true. cbv iota.
  by rewrite find_close_key, scan_skip_key.
Qed.

(** Literal text in front of a placeholder. *)
Lemma scan_text_before s r :
  has_opener (s +:+ "{") = false →
  scan Text (s +:+ String "{" r) =
  foldr lit_cons (scan Text (String "{" r)) (chars s).
Proof.
  induction s as [|a s IH]; [done|]. rewrite !string_app_cons.
  cbn [chars foldr].
  destruct (s +:+ "{") as [|b s1] eqn:Hs1; [by destruct s|].
  destruct (s +:+ String "{" r) as [|b' s2] eqn:Hs2; [by destruct s|].
  assert (b' = b) as -> by (destruct s; simpl in *; congruence).
  rewrite has_opener_cons, scan_text_cons.
  intros [-> Hs]%orb_false_elim. by rewrite IH.
Qed.

Lemma foldr_lit_cons_ref s k ts :
  s ≠ "" → foldr lit_cons (Ref k :: ts) (chars s) = Lit s :: Ref k :: ts.
Proof.
  induction s as [|a s IH]; [done|]. intros _. destruct s as [|b s]; [done|].
  cbn [chars foldr] in *. by rewrite IH.
Qed.

Lemma render_cons t ts : render (t :: ts) = render_token t +:+ render ts.
Proof. done. Qed.

Lemma render_ref k ts :
  render (Ref k :: ts) = "{{" +:+ k +:+ "}}" +:+ render ts.
Proof.
  rewrite render_cons. cbn [render_token]. by rewrite !string_app_assoc.
Qed.

(** Printing canonical tokens and parsing the text gives the tokens back. *)
Lemma parse_render ts : canonical ts → parse (render ts) = ts.
Proof.
  unfold parse. induction ts as [|[s|k] ts IH]; [done|..]; cbn [canonical].
  - intros [Hs Hts]%andb_prop_elim. rewrite bool_decide_spec in Hs.
    rewrite render_cons. cbn [render_token].
    destruct ts as [|[s'|k] ts]; [|done|].
    + apply negb_prop_elim, Is_true_false_1 in Hts.
      rewrite string_app_nil_r, scan_plain by done.
      unfold lit. by rewrite decide_False.
    + apply andb_prop_elim in Hts as [Ho Hts].
      apply negb_prop_elim, Is_true_false_1 in Ho. specialize (IH Hts).
      rewrite render_ref in *.
      change ("{{" +:+ ?x) with (String "{" ("{" +:+ x)) in *.
      rewrite scan_text_before, IH by done. by apply foldr_lit_cons_ref.
  - intros [Hk Hts]%andb_prop_elim.
    rewrite render_ref, scan_placeholder by done. f_equal. by apply IH.
Qed.

(** ** Substitution: lemmas *)

Lemma expand_lit f s : expand f (lit s) = Ok s.
Proof.
  unfold lit. case_decide; subst; simpl; [done|by rewrite string_app_nil_r].
Qed.

(** Success carries over to a function that agrees on the successes. *)
Lemma expand_Ok_impl f g ts x :
  (∀ k y, k ∈ refs ts → f k = Ok y → g k = Ok y) →
  expand f ts = Ok x → expand g ts = Ok x.
Proof.
  revert x. induction ts as [|[s|k] ts IH]; intros x Hfg; simpl; [done|..].
  - intros (r & Hr & [= <-])%result_bind_Ok. by rewrite (IH r).
  - intros (y & Hy & (r & Hr & [= <-])%result_bind_Ok)%result_bind_Ok.
    rewrite (Hfg k y), (IH r); [done| |done|by left|done].
    intros k' y' ?. apply Hfg. by right.
Qed.

Lemma expand_Ok_refs f ts x k :
  expand f ts = Ok x → k ∈ refs ts → ∃ y, f k = Ok y.
Proof.
  revert x. induction ts as [|[s|k'] ts IH]; intros x; simpl.
  - by intros _ ?%elem_of_nil.
  - intros (r & Hr & _)%result_bind_Ok. by apply (IH r).
  - intros (y & Hy & (r & Hr & _)%result_bind_Ok)%result_bind_Ok.
    intros [->|?]%elem_of_cons; [by exists y|by apply (IH r)].
Qed.

Lemma expand_Err f ts e :
  expand f ts = Err e → ∃ k, k ∈ refs ts ∧ f k = Err e.
Proof.
  induction ts as [|[s|k] ts IH]; simpl; [done|..].
  - intros [Hr|(r & _ & [=])]%result_bind_Err.
    destruct (IH Hr) as (k & ? & ?). by exists k.
  - intros [Hk|(y & _ & [Hr|(r & _ & [=])]%result_bind_Err)]%result_bind_Err.
    + exists k. split; [by left|done].
    + destruct (IH Hr) as (k' & ? & ?). exists k'. split; [by right|done].
Qed.

(** [expand] with a function that reads the keys from [σ] is
    [instantiate]. *)
Lemma expand_instantiate f σ ts x :
  (∀ k y, k ∈ refs ts → f k = Ok y → σ !! k = Some y) →
  expand f ts = Ok x → instantiate σ ts = Some x.
Proof.
  revert x. induction ts as [|[s|k] ts IH]; intros x Hf; simpl.
  - by intros [= <-].
  - intros (r & Hr & [= <-])%result_bind_Ok. by rewrite (IH r).
  - intros (y & Hy & (r & Hr & [= <-])%result_bind_Ok)%result_bind_Ok.
    rewrite (Hf k y), (IH r); [done| |done|by left|done].
    intros k' y' ?. apply Hf. by right.
Qed.

(** A value without placeholder is returned unchanged. *)
Lemma resolve_property_plain m ctx p v :
  has_opener v = false → resolve_property m ctx p v = Ok v.
Proof.
  intros. unfold resolve_property. rewrite parse_plain by done.
  apply expand_lit.
Qed.

(** ** Resolution of a key: lemmas *)

Section resolve_key.
Context (m ctx : gmap string string).

Lemma resolve_key_unfold d stack p k :
  resolve_key d m ctx stack p k =
  match m !! k with
  | Some v =>
      if decide (k ∈ stack) then
        Err (CyclicTemplateReferenceError (cycle_of stack k))
      else
        match d with
        | 0 => Err (TemplateRecursionLimitError p)
        | S d' => expand (resolve_key d' m ctx (stack ++ [k]) k) (parse v)
        end
  | None => ctx !! k ?! UnresolvedReferenceError k p
  end.
Proof. destruct d; simpl; by repeat case_match. Qed.

Lemma resolve_key_property d stack p k v :
  m !! k = Some v → k ∉ stack →
  resolve_key (S d) m ctx stack p k =
  expand (resolve_key d m ctx (stack ++ [k]) k) (parse v).
Proof. intros Hk ?. by rewrite resolve_key_unfold, Hk, decide_False. Qed.

Lemma resolve_key_context d stack p k :
  m !! k = None →
  resolve_key d m ctx stack p k = ctx !! k ?! UnresolvedReferenceError k p.
Proof. intros Hk. by rewrite resolve_key_unfold, Hk. Qed.

Lemma resolve_key_Ok_inv d stack p k v x :
  m !! k = Some v → resolve_key d m ctx stack p k = Ok x →
  ∃ d', d = S d' ∧ (k ∉ stack) ∧
    expand (resolve_key d' m ctx (stack ++ [k]) k) (parse v) = Ok x.
Proof.
  intros Hk. rewrite resolve_key_unfold, Hk.
  case_decide; [done|]. destruct d as [|d']; [done|]. by exists d'.
Qed.

(** The resolution of a property is the resolution of the reference to it
    from nowhere, with one more level. *)
Lemma resolve_property_key p v q :
  m !! p = Some v →
  resolve_property m ctx p v = resolve_key (S max_depth) m ctx [] q p.
Proof.
  intros. rewrite (resolve_key_property _ _ _ _ v); [done..|].
  apply not_elem_of_nil.
Qed.

(** A success does not depend on the property asking, and stays with more
    depth and with another stack, as long as what the new stack adds is
    not reached from the key. *)
Lemma resolve_key_weaken d d' stack stack' p p' k x :
  d ≤ d' →
  (∀ z, z ∈ stack' → z ∈ stack ∨ ¬ rtc (refers m) k z) →
  resolve_key d m ctx stack p k = Ok x →
  resolve_key d' m ctx stack' p' k = Ok x.
Proof.
  revert d' stack stack' p p' k x.
  induction d as [|d IH]; intros d' stack stack' p p' k x Hd Hst;
    destruct (m !! k) as [v|] eqn:Hk.
  2,4: rewrite !resolve_key_context by done; by destruct (ctx !! k).
  - by intros (? & ? & _)%(resolve_key_Ok_inv _ _ _ _ v).
  - intros (? & [= <-] & Hnin & Hx)%(resolve_key_Ok_inv _ _ _ _ v); [|done].
    destruct d' as [|d']; [lia|].
    rewrite (resolve_key_property _ _ _ _ v); [|done|by intros [?|[]]%Hst].
    eapply expand_Ok_impl; [|done]. intros k' y Hk'. apply IH; [lia|].
    intros z [[?|Hn]%Hst|?]%elem_of_app; rewrite elem_of_app; [auto| |auto].
    right. intros Hr. apply Hn. eapply rtc_l; [by exists v|done].
Qed.

Lemma resolve_key_mono d d' stack stack' p p' k x :
  d ≤ d' → stack' ⊆ stack →
  resolve_key d m ctx stack p k = Ok x →
  resolve_key d' m ctx stack' p' k = Ok x.
Proof. intros ? Hst. apply resolve_key_weaken; [done|]. intros z ?%Hst. auto. Qed.

(** What a successful resolution has resolved: every key the value refers
    to, one level deeper. *)
Lemma resolve_key_Ok_step d stack p k x k' :
  resolve_key d m ctx stack p k = Ok x → refers m k k' →
  ∃ d' x', d = S d' ∧ resolve_key d' m ctx (stack ++ [k]) k k' = Ok x'.
Proof.
  intros Hx (v & Hk & Hk').
  destruct (resolve_key_Ok_inv _ _ _ _ _ _ Hk Hx) as (d' & -> & _ & Hv).
  destruct (expand_Ok_refs _ _ _ _ Hv Hk') as [x' ?]. by exists d', x'.
Qed.

Lemma resolve_key_Ok_tc k k' :
  tc (refers m) k k' → ∀ d stack p x,
  resolve_key d m ctx stack p k = Ok x →
  ∃ d' stack' p' x', d' < d ∧ resolve_key d' m ctx stack' p' k' = Ok x'.
Proof.
  induction 1 as [k k' Hr|k k1 k' Hr _ IH]; intros d stack p x Hx;
    destruct (resolve_key_Ok_step _ _ _ _ _ _ Hx Hr) as (d1 & x1 & -> & Hx1).
  - exists d1, (stack ++ [k]), k, x1. split; [lia|done].
  - destruct (IH _ _ _ _ Hx1) as (d' & stack' & p' & x' & ? & ?).
    exists d', stack', p', x'. split; [lia|done].
Qed.

(** A property on a cycle of references never resolves. *)
Lemma resolve_key_cyclic d stack p k x :
  tc (refers m) k k → resolve_key d m ctx stack p k ≠ Ok x.
Proof.
  intros Hc. revert stack p x.
  induction (lt_wf d) as [d _ IH]; intros stack p x Hx.
  destruct (resolve_key_Ok_tc _ _ Hc _ _ _ _ Hx) as (d' & ? & ? & ? & ? & ?).
  by eapply IH.
Qed.

End resolve_key.

(** ** Errors: lemmas *)

Section errors.
Context (m ctx : gmap string string).

Lemma trail_start p v k :
  m !! p = Some v → k ∈ refs (parse v) → trail m [p] p k.
Proof.
  intros. split_and!; [apply path_pair; by exists v|done|apply NoDup_singleton].
Qed.

Lemma trail_push stack p k k' :
  trail m stack p k → k ∉ stack → refers m k k' → trail m (stack ++ [k]) k k'.
Proof.
  intros (Hp & _ & Hnd) Hk ?. split_and!.
  - rewrite <-(assoc_L (++)). by apply path_snoc.
  - apply last_snoc.
  - apply NoDup_app. split_and!; [done| |apply NoDup_singleton].
    by intros z ? ->%list_elem_of_singleton.
Qed.

Lemma trail_refers stack p k : trail m stack p k → refers m p k.
Proof. intros (Hp & Hl & _). by eapply path_last_step. Qed.

Lemma trail_path stack p k : trail m stack p k → path (refers m) stack.
Proof. intros (Hp & _). eapply path_prefix; [|done]. by apply prefix_app_r. Qed.

(** The error of a call that does not enter a property is raised by the
    call. *)
Lemma raised_here d stack p k e :
  resolve_key d m ctx stack p k = Err e →
  m !! k = None ∨ k ∈ stack ∨ d = 0 →
  raised m ctx d stack p k e.
Proof.
  rewrite resolve_key_unfold. destruct (m !! k) as [v|] eqn:Hk.
  - case_decide; [intros [= <-] _; by constructor|].
    intros He [?|[?| ->]]; [done..|]. injection He as <-. by constructor.
  - destruct (ctx !! k) eqn:Hc; simpl; [done|]. intros [= <-] _.
    by constructor.
Qed.

(** Every error is raised at the end of a chain of references that starts
    on the stack, as deep as the levels used up. *)
Lemma resolve_key_Err d stack p k e :
  trail m stack p k → resolve_key d m ctx stack p k = Err e →
  ∃ d' stack' p' k', trail m stack' p' k' ∧ stack `prefix_of` stack' ∧
    length stack' + d' = length stack + d ∧ raised m ctx d' stack' p' k' e.
Proof.
  revert stack p k. induction d as [|d IH]; intros stack p k Ht He.
  { exists 0, stack, p, k. split_and!; [done..|]. apply raised_here; auto. }
  destruct (m !! k) as [v|] eqn:Hk; [destruct (decide (k ∈ stack))|].
  1,3: exists (S d), stack, p, k; split_and!; [done..|];
    apply raised_here; auto.
  rewrite (resolve_key_property _ _ _ _ _ _ v) in He by done.
  apply expand_Err in He as (k' & Hk' & He).
  destruct (IH (stack ++ [k]) k k')
    as (d' & stack' & p' & k'' & Ht' & Hpre & Hlen & Hr);
    [apply (trail_push _ p); [done..|by exists v]|done|].
  exists d', stack', p', k''. split_and!; [done| | |done].
  - etrans; [|done]. by apply prefix_app_r.
  - rewrite Hlen, length_app. simpl. lia.
Qed.

Lemma resolve_property_Err p v e :
  m !! p = Some v → resolve_property m ctx p v = Err e →
  ∃ d stack q k, trail m stack q k ∧ head stack = Some p ∧
    length stack + d = S max_depth ∧ raised m ctx d stack q k e.
Proof.
  intros Hp (k & Hk & He)%expand_Err.
  destruct (resolve_key_Err _ _ _ _ _ (trail_start _ _ _ Hp Hk) He)
    as (d & stack & q & k' & Ht & [l ->] & Hlen & Hr).
  by exists d, ([p] ++ l), q, k'.
Qed.

(** A cycle error names a cycle of references that the property reaches. *)
Lemma cyclic_error_sound p v c :
  m !! p = Some v →
  resolve_property m ctx p v = Err (CyclicTemplateReferenceError c) →
  ∃ k, path (refers m) c ∧ head c = Some k ∧ last c = Some k ∧
    1 < length c ∧ rtc (refers m) p k.
Proof.
  intros Hp (d & stack & q & k & Ht & Hh & _ & Hr)%resolve_property_Err;
    [|done].
  inversion Hr as [? ? ? ? _ Hin| |]; subst. exists k. unfold cycle_of.
  pose proof (drop_to_head _ _ Hin) as Hd.
  destruct (drop_to k stack) as [|k0 l] eqn:Hdrop; simplify_eq/=.
  split_and!;
    [|done|apply (last_snoc (A:=string) k (k :: l))| |].
  2: { rewrite length_app. simpl. lia. }
  - destruct Ht as (Hpath & _). eapply path_suffix; [|done].
    change (k :: l ++ [k]) with ((k :: l) ++ [k]). rewrite <-Hdrop.
    apply suffix_app, drop_to_suffix.
  - eapply path_rtc; [by eapply trail_path|done..].
Qed.

(** An unresolved-reference error names a key that is neither a property
    nor a context variable, and a property, reached from the one being
    resolved, whose value refers to the key. *)
Lemma unresolved_error_sound p v k q :
  m !! p = Some v →
  resolve_property m ctx p v = Err (UnresolvedReferenceError k q) →
  m !! k = None ∧ ctx !! k = None ∧ refers m q k ∧ rtc (refers m) p q.
Proof.
  intros Hp (d & stack & q' & k' & Ht & Hh & _ & Hr)%resolve_property_Err;
    [|done].
  inversion Hr; subst. split_and!; [done..|by eapply trail_refers|].
  eapply path_rtc; [by eapply trail_path|done|].
  destruct Ht as (_ & Hl%last_Some_elem_of & _). done.
Qed.

(** A depth error names the last property of a chain of references, from
    the one being resolved on, that is one longer than the bound, and that
    property refers to one more property. *)
Lemma limit_error_sound p v q :
  m !! p = Some v →
  resolve_property m ctx p v = Err (TemplateRecursionLimitError q) →
  ∃ chain k, path (refers m) chain ∧ NoDup chain ∧
    head chain = Some p ∧ last chain = Some q ∧
    length chain = S max_depth ∧ refers m q k ∧ is_Some (m !! k).
Proof.
  intros Hp (d & stack & q' & k & Ht & Hh & Hlen & Hr)%resolve_property_Err;
    [|done].
  inversion Hr; subst. exists stack, k.
  pose proof (trail_path _ _ _ Ht). pose proof (trail_refers _ _ _ Ht).
  destruct Ht as (_ & ? & ?). split_and!; [done..|lia|done|done].
Qed.

End errors.

(** ** The engine: lemmas *)

Section resolve_all.
Context (m ctx : gmap string string).
Implicit Types (e : Error).

Lemma resolve_all_Ok rs :
  resolve_all m ctx = Ok rs ↔
  map_Forall2 (λ p v x, resolve_property m ctx p v = Ok x) m rs.
Proof. apply map_traverse_Ok. Qed.

Lemma resolve_all_lookup rs p :
  resolve_all m ctx = Ok rs →
  rs !! p = m !! p ≫= λ v, result_to_option (resolve_property m ctx p v).
Proof. apply map_traverse_lookup. Qed.

Lemma resolve_all_lookup_Some rs p v :
  resolve_all m ctx = Ok rs → m !! p = Some v →
  ∃ x, rs !! p = Some x ∧ resolve_property m ctx p v = Ok x.
Proof.
  intros Hrs%resolve_all_Ok Hp. specialize (Hrs p). rewrite Hp in Hrs.
  inversion Hrs as [? x Hx|]. by exists x.
Qed.

Lemma resolve_all_lookup_None rs p :
  resolve_all m ctx = Ok rs → m !! p = None → rs !! p = None.
Proof. intros Hrs Hp. by rewrite (resolve_all_lookup _ _ Hrs), Hp. Qed.

(** The error of the engine is the error of one of the properties. *)
Lemma resolve_all_Err e :
  resolve_all m ctx = Err e →
  ∃ p v, m !! p = Some v ∧ resolve_property m ctx p v = Err e.
Proof. apply map_traverse_Err. Qed.

(** The engine succeeds exactly when every property resolves. *)
Lemma resolve_all_is_ok :
  is_ok (resolve_all m ctx) ↔
  ∀ p v, m !! p = Some v → is_ok (resolve_property m ctx p v).
Proof. apply map_traverse_is_ok. Qed.

(** A set without placeholder is returned unchanged. *)
Lemma resolve_all_plain :
  map_Forall (λ _ v, has_opener v = false) m → resolve_all m ctx = Ok m.
Proof.
  intros Hm. apply resolve_all_Ok. intros p.
  destruct (m !! p) as [v|] eqn:Hp; constructor.
  apply resolve_property_plain. by eapply Hm.
Qed.

(** What the resolution of a key returns is what the resolved set and the
    context assign to the key. *)
Lemma resolved_key_lookup rs d stack p k y :
  resolve_all m ctx = Ok rs → d ≤ S max_depth →
  resolve_key d m ctx stack p k = Ok y → (rs ∪ ctx) !! k = Some y.
Proof.
  intros Hrs Hd Hy. destruct (m !! k) as [v|] eqn:Hk.
  - apply lookup_union_Some_l.
    destruct (resolve_all_lookup_Some _ _ _ Hrs Hk) as (x & -> & Hx).
    rewrite (resolve_property_key _ _ _ _ k) in Hx by done.
    rewrite (resolve_key_mono _ _ _ _ _ _ _ _ _ _ Hd (list_subseteq_nil _) Hy)
      in Hx. congruence.
  - rewrite resolve_key_context in Hy by done.
    rewrite lookup_union_r by by apply resolve_all_lookup_None.
    by destruct (ctx !! k); simplify_eq/=.
Qed.

(** The resolved set is a fixed point of substitution. *)
Lemma resolve_all_fixed_point rs :
  resolve_all m ctx = Ok rs → fixed_point m ctx rs.
Proof.
  intros Hrs p. destruct (m !! p) as [v|] eqn:Hp; simpl.
  - destruct (resolve_all_lookup_Some _ _ _ Hrs Hp) as (x & -> & Hx).
    symmetry. eapply expand_instantiate; [|done]. intros k y _.
    apply resolved_key_lookup; [done|unfold max_depth; lia].
  - by apply resolve_all_lookup_None.
Qed.

(** What a key resolves to is what any fixed point assigns to it. *)
Lemma fixed_point_key rs d stack p k y :
  fixed_point m ctx rs → resolve_key d m ctx stack p k = Ok y →
  (rs ∪ ctx) !! k = Some y ∧ (is_Some (m !! k) → rs !! k = Some y).
Proof.
  intros Hfp. revert stack p k y.
  induction d as [|d IH]; intros stack p k y Hy;
    pose proof (Hfp k) as Hk; destruct (m !! k) as [v|] eqn:Hmk; simpl in Hk.
  2,4: rewrite resolve_key_context in Hy by done;
    rewrite lookup_union_r by done;
    split; [by destruct (ctx !! k); simplify_eq/=|by intros [? ?]].
  - by destruct (resolve_key_Ok_inv _ _ _ _ _ _ _ _ Hmk Hy) as (? & ? & _).
  - destruct (resolve_key_Ok_inv _ _ _ _ _ _ _ _ Hmk Hy)
      as (? & [= <-] & _ & Hv).
    assert (rs !! k = Some y) as Hrk.
    { rewrite Hk. eapply expand_instantiate; [|done].
      intros k' y' _ Hy'. by apply IH in Hy' as [? _]. }
    split; [by apply lookup_union_Some_l|done].
Qed.

(** The resolved set is the only fixed point. *)
Lemma fixed_point_unique rs rs' :
  resolve_all m ctx = Ok rs → fixed_point m ctx rs' → rs' = rs.
Proof.
  intros Hrs Hfp. apply map_eq. intros p.
  destruct (m !! p) as [v|] eqn:Hp.
  - destruct (resolve_all_lookup_Some _ _ _ Hrs Hp) as (x & -> & Hx).
    rewrite (resolve_property_key _ _ _ _ p) in Hx by done.
    by apply (fixed_point_key rs') in Hx as [_ ->].
  - rewrite (resolve_all_lookup_None _ _ Hrs Hp). by rewrite (Hfp p), Hp.
Qed.

(** When the engine succeeds no property is on a cycle of references. *)
Lemma resolve_all_acyclic rs p :
  resolve_all m ctx = Ok rs → ¬ tc (refers m) p p.
Proof.
  intros Hrs Hc. assert (∃ v, m !! p = Some v) as [v Hp].
  { inversion Hc as [? ? (v & ? & _)|? ? ? (v & ? & _)]; by exists v. }
  destruct (resolve_all_lookup_Some _ _ _ Hrs Hp) as (x & _ & Hx).
  rewrite (resolve_property_key _ _ _ _ p) in Hx by done.
  by eapply resolve_key_cyclic.
Qed.

End resolve_all.

(** ** The examples of the specification *)

Example transitive_reference :
  resolve_all ex_props ex_context =
  Ok {[ "greeting" := "Fix bug!"; "name" := "Fix bug" ]}.
Proof. by_compute. Qed.

(** Each property of the cycle fails with the cycle as met from it; the
    engine returns the error of one of them. *)
Example reference_cycle :
  resolve_property ex_cyclic ex_context "a" "{{ b }}" =
    Err (CyclicTemplateReferenceError ["a"; "b"; "a"]) ∧
  resolve_property ex_cyclic ex_context "b" "{{ a }}" =
    Err (CyclicTemplateReferenceError ["b"; "a"; "b"]) ∧
  resolve_all ex_cyclic ex_context =
    Err (CyclicTemplateReferenceError ["b"; "a"; "b"]).
Proof. by_compute. Qed.

Example unresolved_reference :
  resolve_all {[ "summary" := "{{ project }}: {{ title }}" ]} ex_context =
  Err (UnresolvedReferenceError "project" "summary").
Proof. by_compute. Qed.

Example whitespace_ignored :
  parse "{{title}} / {{  title  }}" = [Ref "title"; Lit " / "; Ref "title"].
Proof. by_compute. Qed.

Example unclosed_marker_is_text :
  parse "{{ a }} and {{ b" = [Ref "a"; Lit " and {{ b"].
Proof. by_compute. Qed.

(** Ten levels below a property resolve, eleven do not. *)
Example depth_within_bound :
  resolve_property ex_chain ∅ "b" "{{c}}" = Ok "end".
Proof. by_compute. Qed.

Example depth_beyond_bound :
  resolve_property ex_chain ∅ "a" "{{b}}" =
  Err (TemplateRecursionLimitError "k").
Proof. by_compute. Qed.

(** A cycle longer than the bound is reported as a chain that is too deep. *)
Example long_cycle_hits_depth_bound :
  resolve_property (<["l" := "{{a}}"]> ex_chain) ∅ "a" "{{b}}" =
  Err (TemplateRecursionLimitError "k").
Proof. by_compute. Qed.

(** A resolved set can hold a placeholder, and resolving it again then
    changes it. *)
Example resolved_set_with_placeholder :
  resolve_all ex_braces ex_context =
    Ok {[ "open" := "{"; "summary" := "{{ title }}" ]} ∧
  (resolve_all ex_braces ex_context ≫= λ rs, resolve_all rs ex_context) =
    Ok {[ "open" := "{"; "summary" := "Fix bug" ]}.
Proof. by_compute. Qed.
