(* ===== verification/Memo.v ===== *)
(** * Template resolution with a cache

    The specification lets an implementation of the template engine resolve
    with a cache of the properties already resolved (section 4.2).  This file
    holds that resolver, written from the specification, and relates it to
    the resolver without a cache of [Template].

    The cache is threaded through the calls: [resolve_key_memo] returns the
    value of a key with the cache it leaves, and [resolve_keys_memo]
    resolves the properties in the order of a list of keys.

    [resolves] is the resolution of a key at any depth; a cache is sound
    when it holds such values.  The theorems: the cached resolver keeps the
    cache sound and only grows it; when it succeeds its result is a fixed
    point of substitution; when the resolver without a cache succeeds, the
    cached resolver succeeds with the same result in every order.  The
    converse fails: a value taken from the cache costs no depth, so the
    cached resolver resolves chains that are deeper than the bound, and
    whether it does depends on the order ([order_matters]). *)

From stdpp Require Import gmap.
From S2P Require Import Prelude Strings Profile Template.
From stdpp Require Import options.

Implicit Types (m ctx c rs : gmap string string) (stack keys : list string).
Implicit Types (p k x y v : string) (ts : list Token) (d : nat).

(** ** The resolver *)

(** [expand] with the cache threaded from left to right. *)
Fixpoint expand_memo
    (f : string → gmap string string → result Error (string * gmap string string))
    ts c : result Error (string * gmap string string) :=
  match ts with
  | [] => Ok ("", c)
  | Lit s :: ts' => r ← expand_memo f ts' c; Ok (s +:+ r.1, r.2)
  | Ref k :: ts' =>
      r1 ← f k c; r2 ← expand_memo f ts' r1.2; Ok (r1.1 +:+ r2.1, r2.2)
  end.

(** [resolve_key] with a cache: a cached key costs nothing, a property that
    is resolved is added to the cache. *)
Fixpoint resolve_key_memo d m ctx stack p k c :
    result Error (string * gmap string string) :=
  match c !! k with
  | Some x => Ok (x, c)
  | None =>
      match m !! k with
      | Some v =>
          if decide (k ∈ stack) then
            Err (CyclicTemplateReferenceError (cycle_of stack k))
          else
            match d with
            | 0 => Err (TemplateRecursionLimitError p)
            | S d' =>
                r ← expand_memo (resolve_key_memo d' m ctx (stack ++ [k]) k)
                       (parse v) c;
                Ok (r.1, <[k := r.1]> r.2)
            end
      | None =>
          match ctx !! k with
          | Some x => Ok (x, c)
          | None => Err (UnresolvedReferenceError k p)
          end
      end
  end.

(** The properties [keys], one after the other, each with the depth of a
    property resolved on its own. *)
Fixpoint resolve_keys_memo m ctx keys c : result Error (gmap string string) :=
  match keys with
  | [] => Ok c
  | p :: keys' =>
      r ← resolve_key_memo (S max_depth) m ctx [] p p c;
      resolve_keys_memo m ctx keys' r.2
  end.

Definition resolve_all_memo m ctx : result Error (gmap string string) :=
  resolve_keys_memo m ctx (elements (dom m)) ∅.

(** The properties of [ex_chain], from the first of the chain to the
    last. *)
Definition ex_chain_keys : list string :=
  ["a"; "b"; "c"; "d"; "e"; "f"; "g"; "h"; "i"; "j"; "k"; "l"].

(** ** What the cache holds *)

(** The key [k] resolves to [x], at some depth. *)
Definition resolves m ctx k x : Prop :=
  ∃ d, resolve_key d m ctx [] k k = Ok x.

Definition cache_sound m ctx c : Prop :=
  ∀ k x, c !! k = Some x → is_Some (m !! k) ∧ resolves m ctx k x.

(** ** Substitution with a cache: lemmas *)

Section expand_memo.
Context (I : gmap string string → Prop).
Context (f : string → gmap string string →
             result Error (string * gmap string string)).

(** When [f] follows [g] on every cache that satisfies [I], so does
    [expand_memo f] follow [expand g]. *)
Lemma expand_memo_complete (g : string → result Error string) ts c x :
  (∀ k c y, k ∈ refs ts → I c → g k = Ok y →
     ∃ c', f k c = Ok (y, c') ∧ I c') →
  I c → expand g ts = Ok x →
  ∃ c', expand_memo f ts c = Ok (x, c') ∧ I c'.
Proof.
  revert c x. induction ts as [|[s|k] ts IH]; intros c x Hf Hc; simpl.
  - intros [= <-]. by exists c.
  - intros (r & Hr & [= <-])%result_bind_Ok.
    destruct (IH c r) as (c' & -> & ?); [done..|]. by exists c'.
  - intros (y & Hy & (r & Hr & [= <-])%result_bind_Ok)%result_bind_Ok.
    destruct (Hf k c y) as (c1 & -> & Hc1); [by left|done..|]. simpl.
    destruct (IH c1 r) as (c2 & -> & ?); [|done..|by exists c2].
    intros k' ? ? ?. apply Hf. by right.
Qed.

(** When every success of [f] is a success of [g] at some depth, every
    success of [expand_memo f] is a success of [expand g] at some depth. *)
Lemma expand_memo_sound (g : nat → string → result Error string) ts c x c' :
  (∀ d d' k y, d ≤ d' → g d k = Ok y → g d' k = Ok y) →
  (∀ k c y c', k ∈ refs ts → I c → f k c = Ok (y, c') →
     I c' ∧ ∃ d, g d k = Ok y) →
  I c → expand_memo f ts c = Ok (x, c') →
  I c' ∧ ∃ d, expand (g d) ts = Ok x.
Proof.
  intros Hg. revert c x c'.
  induction ts as [|[s|k] ts IH]; intros c x c' Hf Hc; simpl.
  - intros [= <- <-]. split; [done|by exists 0].
  - intros ([r c1] & Hr & [= <- <-])%result_bind_Ok.
    destruct (IH c r c1) as (? & d & Hd); [done..|].
    split; [done|]. exists d. by rewrite Hd.
  - intros ([y c1] & Hy & ([r c2] & Hr & [= <- <-])%result_bind_Ok)
      %result_bind_Ok.
    destruct (Hf k c y c1) as (Hc1 & d1 & Hd1); [by left|done..|].
    destruct (IH c1 r c2) as (? & d2 & Hd2); [|done..|].
    { intros k' ? ? ? ?. apply Hf. by right. }
    split; [done|]. exists (d1 `max` d2).
    rewrite (Hg d1 _ k y) by (done || lia). simpl.
    rewrite (expand_Ok_impl (g d2) (g (d1 `max` d2)) ts r); [done| |done].
    intros k' y' _. apply Hg. lia.
Qed.

End expand_memo.

(** ** Resolution at any depth: lemmas *)

Section resolves.
Context (m ctx : gmap string string).

Lemma resolve_key_resolves d stack p k x :
  resolve_key d m ctx stack p k = Ok x → resolves m ctx k x.
Proof.
  intros Hx. exists d. eapply resolve_key_mono; [done| |done].
  apply list_subseteq_nil.
Qed.

Lemma resolves_det k x y : resolves m ctx k x → resolves m ctx k y → x = y.
Proof.
  intros [d1 H1] [d2 H2].
  apply (resolve_key_mono _ _ _ (d1 `max` d2) _ [] k k) in H1; [|lia|done].
  apply (resolve_key_mono _ _ _ (d1 `max` d2) _ [] k k) in H2; [|lia|done].
  congruence.
Qed.

(** A property resolves to the value of its tokens when the keys it refers
    to resolve. *)
Lemma resolves_property d k v x :
  m !! k = Some v → expand (resolve_key d m ctx [] k) (parse v) = Ok x →
  resolve_key (S d) m ctx [] k k = Ok x.
Proof.
  intros Hk Hx.
  rewrite (resolve_key_property _ _ _ _ _ _ v) by (done || apply not_elem_of_nil).
  eapply expand_Ok_impl; [|done]. intros k' y Hk' Hy.
  eapply resolve_key_weaken; [done| |done].
  intros z ->%list_elem_of_singleton. right. intros Hr.
  eapply (resolve_key_cyclic m ctx d [] k k' y); [|done].
  eapply tc_rtc_l; [done|]. apply tc_once. by exists v.
Qed.

(** A set that holds for every property a value it resolves to is a fixed
    point of substitution. *)
Lemma resolves_fixed_point rs :
  (∀ p, is_Some (rs !! p) ↔ is_Some (m !! p)) →
  (∀ p x, rs !! p = Some x → resolves m ctx p x) →
  fixed_point m ctx rs.
Proof.
  intros Hdom Hrs p. destruct (m !! p) as [v|] eqn:Hp; simpl.
  - destruct (proj2 (Hdom p)) as [x Hx]; [by rewrite Hp|].
    rewrite Hx. destruct (Hrs p x Hx) as [d Hd].
    destruct (resolve_key_Ok_inv _ _ _ _ _ _ _ _ Hp Hd) as (d' & -> & _ & Hv).
    symmetry. eapply expand_instantiate; [|done]. intros k y _ Hy.
    apply resolve_key_resolves in Hy.
    destruct (rs !! k) as [y'|] eqn:Hk.
    + apply lookup_union_Some_l. rewrite Hk. f_equal.
      eapply resolves_det; [|done]. eauto.
    + rewrite lookup_union_r by done. destruct Hy as [d Hy].
      rewrite resolve_key_context in Hy.
      * by destruct (ctx !! k); simplify_eq/=.
      * rewrite eq_None_not_Some, <-Hdom. by rewrite Hk; intros [? ?].
  - rewrite eq_None_not_Some, Hdom, Hp. by intros [? ?].
Qed.

End resolves.

(** ** The cached resolver: lemmas *)

Section memo.
Context (m ctx : gmap string string).

Lemma resolve_key_memo_unfold d stack p k c :
  resolve_key_memo d m ctx stack p k c =
  match c !! k with
  | Some x => Ok (x, c)
  | None =>
      match m !! k with
      | Some v =>
          if decide (k ∈ stack) then
            Err (CyclicTemplateReferenceError (cycle_of stack k))
          else
            match d with
            | 0 => Err (TemplateRecursionLimitError p)
            | S d' =>
                r ← expand_memo (resolve_key_memo d' m ctx (stack ++ [k]) k)
                       (parse v) c;
                Ok (r.1, <[k := r.1]> r.2)
            end
      | None =>
          match ctx !! k with
          | Some x => Ok (x, c)
          | None => Err (UnresolvedReferenceError k p)
          end
      end
  end.
Proof. by destruct d. Qed.

(** The cached resolver keeps the cache sound and only grows it; what it
    returns is what the key resolves to, and is cached when the key is a
    property. *)
Lemma resolve_key_memo_sound d stack p k c x c' :
  cache_sound m ctx c → resolve_key_memo d m ctx stack p k c = Ok (x, c') →
  cache_sound m ctx c' ∧ c ⊆ c' ∧ resolves m ctx k x ∧
  (is_Some (m !! k) → c' !! k = Some x).
Proof.
  revert stack p k c x c'.
  induction d as [|d IH]; intros stack p k c x c' Hc;
    rewrite resolve_key_memo_unfold; destruct (c !! k) as [x0|] eqn:Hck.
  1,3: intros [= <- <-]; split_and!; [done|done|by apply Hc|done].
  all: destruct (m !! k) as [v|] eqn:Hk.
  2,4: destruct (ctx !! k) eqn:Hctx; [|done]; intros [= <- <-];
    split_and!; [done|done| |by intros [? ?]];
    exists 0; by rewrite resolve_key_context, Hctx.
  { by case_decide. }
  case_decide; [done|]. intros ([r c1] & Hr & [= <- <-])%result_bind_Ok.
  edestruct (expand_memo_sound (λ c1, cache_sound m ctx c1 ∧ c ⊆ c1)
    (resolve_key_memo d m ctx (stack ++ [k]) k)
    (λ d, resolve_key d m ctx [] k)) as ([Hc1 Hsub] & D & HD);
    [| |split; [exact Hc|done]|exact Hr|].
  { intros d0 d' k' y Hd. by apply resolve_key_mono. }
  { intros k' c0 y c0' _ [Hc0 Hs0] Hf.
    destruct (IH _ _ _ _ _ _ Hc0 Hf) as (? & ? & [d0 Hd0] & _).
    split; [split; [done|by etrans]|]. exists d0.
    by eapply resolve_key_mono. }
  pose proof (resolves_property m ctx D k v r Hk HD) as Hres. simpl.
  split_and!; [|..|by exists (S D)|by rewrite lookup_insert_eq].
  - intros k0 x0 [[<- <-]|[? ?]]%lookup_insert_Some; [|by apply Hc1].
    split; [by eauto|by exists (S D)].
  - apply map_subseteq_spec. intros k0 x0 Hk0.
    rewrite lookup_insert_ne by congruence.
    by eapply (map_subseteq_spec c c1).
Qed.

(** Where the resolver without a cache succeeds, the cached resolver
    succeeds with the same value, whatever the sound cache it starts
    from. *)
Lemma resolve_key_memo_complete d stack p k c x :
  cache_sound m ctx c → resolve_key d m ctx stack p k = Ok x →
  ∃ c', resolve_key_memo d m ctx stack p k c = Ok (x, c').
Proof.
  revert stack p k c x.
  induction d as [|d IH]; intros stack p k c x Hc Hx;
    rewrite resolve_key_memo_unfold; destruct (c !! k) as [y|] eqn:Hck.
  1,3: exists c; do 2 f_equal; eapply resolves_det;
    [by apply Hc|by eapply resolve_key_resolves].
  all: rewrite resolve_key_unfold in Hx; destruct (m !! k) as [v|] eqn:Hk.
  2,4: destruct (ctx !! k); simplify_eq/=; by exists c.
  { by case_decide. }
  case_decide; [done|].
  edestruct (expand_memo_complete (cache_sound m ctx)
    (resolve_key_memo d m ctx (stack ++ [k]) k)) as (c1 & -> & _);
    [|exact Hc|exact Hx|by eexists].
  intros k' c0 y _ Hc0 Hy. destruct (IH _ _ _ c0 _ Hc0 Hy) as [c0' Hm].
  exists c0'. split; [done|]. by eapply resolve_key_memo_sound.
Qed.

(** ** The properties in an order *)

Local Arguments resolve_key_memo : simpl never.

Lemma cache_sound_empty : cache_sound m ctx ∅.
Proof. intros k x. by rewrite lookup_empty. Qed.

Lemma resolve_keys_memo_sound keys c c' :
  cache_sound m ctx c → resolve_keys_memo m ctx keys c = Ok c' →
  cache_sound m ctx c' ∧ c ⊆ c' ∧
  ∀ p, p ∈ keys → is_Some (m !! p) → is_Some (c' !! p).
Proof.
  revert c. induction keys as [|p keys IH]; intros c Hc; simpl.
  { intros [= <-]. split_and!; [done..|]. by intros p ?%elem_of_nil. }
  intros ([x c1] & Hp & Hks)%result_bind_Ok.
  destruct (resolve_key_memo_sound _ _ _ _ _ _ _ Hc Hp) as (Hc1 & ? & _ & Hx).
  destruct (IH c1 Hc1 Hks) as (? & Hsub & Hkeys).
  split_and!; [done|by etrans|]. intros q [->|?]%elem_of_cons Hq; [|auto].
  exists x. eapply (map_subseteq_spec c1 c'); auto.
Qed.

(** How the cached resolver succeeds on the properties [keys]. *)
Lemma resolve_keys_memo_complete keys c :
  cache_sound m ctx c →
  (∀ p, p ∈ keys → ∃ x, resolve_key (S max_depth) m ctx [] p p = Ok x) →
  ∃ c', resolve_keys_memo m ctx keys c = Ok c'.
Proof.
  revert c. induction keys as [|p keys IH]; intros c Hc Hkeys; simpl.
  { by exists c. }
  destruct (Hkeys p) as [x Hx]; [by left|].
  destruct (resolve_key_memo_complete _ _ _ _ c _ Hc Hx) as [c1 Hc1].
  rewrite Hc1. simpl. apply IH.
  - by eapply resolve_key_memo_sound.
  - intros q ?. apply Hkeys. by right.
Qed.

(** When the cached resolver succeeds on all the properties, in whatever
    order, its result is a fixed point of substitution. *)
Theorem resolve_keys_memo_fixed_point keys rs :
  (∀ p, p ∈ keys ↔ is_Some (m !! p)) →
  resolve_keys_memo m ctx keys ∅ = Ok rs → fixed_point m ctx rs.
Proof.
  intros Hkeys (Hs & _ & Hdom)%resolve_keys_memo_sound;
    [|apply cache_sound_empty].
  apply resolves_fixed_point; [|intros p x Hp; by apply Hs].
  intros p. split; [intros [x Hx]; by apply (Hs p x)|].
  intros Hp. apply Hdom; [by apply Hkeys|done].
Qed.

(** When the resolver without a cache succeeds, the cached resolver
    succeeds with the same result, in whatever order. *)
Theorem resolve_keys_memo_refines keys rs :
  (∀ p, p ∈ keys ↔ is_Some (m !! p)) →
  resolve_all m ctx = Ok rs → resolve_keys_memo m ctx keys ∅ = Ok rs.
Proof.
  intros Hkeys Hrs.
  destruct (resolve_keys_memo_complete keys ∅) as [c' Hc'];
    [apply cache_sound_empty| |].
  - intros p [v Hp]%Hkeys.
    destruct (resolve_all_lookup_Some _ _ _ _ _ Hrs Hp) as (x & _ & Hx).
    exists x. by rewrite <-(resolve_property_key _ _ _ v).
  - rewrite Hc'. f_equal. eapply fixed_point_unique; [done|].
    by eapply resolve_keys_memo_fixed_point.
Qed.

Lemma elements_dom_keys p : p ∈ elements (dom m) ↔ is_Some (m !! p).
Proof. by rewrite elem_of_elements, elem_of_dom. Qed.

Corollary resolve_all_memo_refines rs :
  resolve_all m ctx = Ok rs → resolve_all_memo m ctx = Ok rs.
Proof. apply resolve_keys_memo_refines, elements_dom_keys. Qed.

Corollary resolve_all_memo_fixed_point rs :
  resolve_all_memo m ctx = Ok rs → fixed_point m ctx rs.
Proof. apply resolve_keys_memo_fixed_point, elements_dom_keys. Qed.

End memo.

(** ** The order matters when the chain is deeper than the bound *)

(** The chain of twelve properties does not resolve without a cache.  With
    a cache it does not resolve from its first property on, and resolves
    from its last property back: the properties met on the way are then in
    the cache. *)
Example order_matters :
  resolve_all ex_chain ∅ = Err (TemplateRecursionLimitError "k") ∧
  resolve_keys_memo ex_chain ∅ ex_chain_keys ∅ =
    Err (TemplateRecursionLimitError "k") ∧
  resolve_keys_memo ex_chain ∅ (reverse ex_chain_keys) ∅ =
    Ok (const "end" <$> ex_chain).
Proof. split_and!; by_compute. Qed.

(** In the order of the keys of the map the cached resolver resolves the
    chain that the resolver without a cache rejects. *)
Example memo_resolves_more :
  resolve_all_memo ex_chain ∅ = Ok (const "end" <$> ex_chain).
Proof. by_compute. Qed.

Example memo_transitive_reference :
  resolve_all_memo ex_props ex_context =
  Ok {[ "greeting" := "Fix bug!"; "name" := "Fix bug" ]}.
Proof. by_compute. Qed.
