(* ===== verification/Schema.v ===== *)
(** * The schema validator

    The engine's schema and schema validator, written from the
    specification (sections 3, 4.3 and 8); the code of the engine is not
    among the sources, so nothing here translates source lines.

    A schema declares fields: required or optional, with or without a
    default, open or with a closed set of allowed values; it is strict or
    not.  [check_field] applies the rules of section 4.3 to one field name,
    in their order; [violations] collects the violations of every field
    name of the schema and of the resolved set; [validate] returns the
    resolved set with the defaults of the absent fields, or all the
    violations.

    A required field that is absent is a violation also when it has a
    default (rule 1 comes before rule 4), and an injected default is not
    checked against the allowed values (rule 3 comes before rule 4).

    The theorems: the violations are exactly the failures of the rules,
    each reported once; validation succeeds exactly on the sets that satisfy
    the schema; the result keeps every field of the set and adds only
    defaults; an undeclared field passes when the schema is not strict. *)

From stdpp Require Import gmap.
From S2P Require Import Prelude Profile.
From stdpp Require Import options.

(** ** Data *)

Record FieldSpec := {
  field_required : bool;
  field_default : option string;
  (** [None]: any string; [Some l]: one of [l]. *)
  field_allowed : option (list string);
}.

Record Schema := {
  schema_fields : gmap string FieldSpec;
  schema_strict : bool;
}.

Global Instance FieldSpec_eq_dec : EqDecision FieldSpec.
Proof. solve_decision. Defined.
Global Instance Schema_eq_dec : EqDecision Schema.
Proof. solve_decision. Defined.

Implicit Types (sch : Schema) (f : FieldSpec) (rs : gmap string string).
Implicit Types (k v : string) (l : list string) (e : Error).

(** ** The validator *)

(** The rules for the field name [k], in the order of the specification. *)
Definition check_field sch rs k : list Error :=
  match schema_fields sch !! k, rs !! k with
  | Some f, None =>
      if field_required f then [MissingRequiredFieldError k] else []
  | None, Some _ =>
      if schema_strict sch then [UnknownFieldError k] else []
  | Some f, Some v =>
      match field_allowed f with
      | Some l => if decide (v ∈ l) then [] else [InvalidValueError k v l]
      | None => []
      end
  | None, None => []
  end.

(** The field names to check: those the schema declares and those the
    resolved set holds. *)
Definition field_names sch rs : list string :=
  elements (dom (schema_fields sch) ∪ dom rs).

Definition violations sch rs : list Error :=
  k ← field_names sch rs; check_field sch rs k.

Definition defaults sch : gmap string string :=
  omap field_default (schema_fields sch).

(** The one mutation of the validator: an absent field gets its default. *)
Definition inject_defaults sch rs : gmap string string := rs ∪ defaults sch.

Definition validate sch rs : result (list Error) (gmap string string) :=
  match violations sch rs with
  | [] => Ok (inject_defaults sch rs)
  | vs => Err vs
  end.

(** ** What the validator promises *)

(** The resolved set satisfies the schema. *)
Record valid sch rs : Prop := {
  valid_required k f :
    schema_fields sch !! k = Some f → field_required f → is_Some (rs !! k);
  valid_allowed k f v l :
    schema_fields sch !! k = Some f → rs !! k = Some v →
    field_allowed f = Some l → v ∈ l;
  valid_known k :
    schema_strict sch → is_Some (rs !! k) → is_Some (schema_fields sch !! k);
}.

(** The failures of the rules. *)
Inductive violates sch rs : Error → Prop :=
| violates_missing k f :
    schema_fields sch !! k = Some f → field_required f = true →
    rs !! k = None →
    violates sch rs (MissingRequiredFieldError k)
| violates_unknown k v :
    schema_strict sch = true → schema_fields sch !! k = None →
    rs !! k = Some v →
    violates sch rs (UnknownFieldError k)
| violates_invalid k f v l :
    schema_fields sch !! k = Some f → rs !! k = Some v →
    field_allowed f = Some l → v ∉ l →
    violates sch rs (InvalidValueError k v l).

(** The field a violation is about. *)
Definition violation_field e : option string :=
  match e with
  | MissingRequiredFieldError k | UnknownFieldError k
  | InvalidValueError k _ _ => Some k
  | _ => None
  end.

(** The defaults of the schema are allowed values. *)
Definition defaults_allowed sch : Prop :=
  ∀ k f v l, schema_fields sch !! k = Some f → field_default f = Some v →
    field_allowed f = Some l → v ∈ l.

(** ** Examples *)

Definition ex_schema : Schema := {|
  schema_fields := {[
    "project" := {| field_required := true; field_default := None;
                    field_allowed := None |};
    "type" := {| field_required := true; field_default := None;
                 field_allowed := Some ["Bug"; "Task"] |};
    "priority" := {| field_required := false; field_default := Some "Medium";
                     field_allowed := Some ["Low"; "Medium"; "High"] |} ]};
  schema_strict := false |}.

Definition ex_strict : Schema :=
  {| schema_fields := schema_fields ex_schema; schema_strict := true |}.

(** A schema whose default is not an allowed value. *)
Definition ex_bad_default : Schema := {|
  schema_fields := {[
    "priority" := {| field_required := false; field_default := Some "Urgent";
                     field_allowed := Some ["Low"; "High"] |} ]};
  schema_strict := false |}.

(** ** Violations: lemmas *)

Section validator.
Context (sch : Schema) (rs : gmap string string).

(** The violations of a field name are the failures of the rules on it. *)
Lemma elem_of_check_field e k :
  e ∈ check_field sch rs k ↔ violates sch rs e ∧ violation_field e = Some k.
Proof.
  unfold check_field. split.
  - destruct (schema_fields sch !! k) as [f|] eqn:Hf,
      (rs !! k) as [v|] eqn:Hv; repeat case_match;
      rewrite ?list_elem_of_singleton; try (by intros ?%elem_of_nil);
      intros ->; (split; [econstructor; eauto|done]).
  - intros [Hv Hk]. destruct Hv as [? f Hf Hr Hn|? v Hs Hf Hv|? f v l Hf Hv Ha Hl];
      simplify_eq/=; rewrite Hf; rewrite ?Hv, ?Hn, ?Hr, ?Hs, ?Ha;
      rewrite ?decide_False by done; by left.
Qed.

Lemma violation_field_names e k :
  violates sch rs e → violation_field e = Some k → k ∈ field_names sch rs.
Proof.
  intros Hv Hk. unfold field_names. rewrite elem_of_elements, elem_of_union.
  rewrite !elem_of_dom. destruct Hv; simplify_eq/=; eauto.
Qed.

Lemma violates_field e : violates sch rs e → is_Some (violation_field e).
Proof. by destruct 1. Qed.

(** Every failure of a rule is reported, and nothing else. *)
Lemma elem_of_violations e : e ∈ violations sch rs ↔ violates sch rs e.
Proof.
  unfold violations. rewrite list_elem_of_bind. split.
  - by intros (k & [? _]%elem_of_check_field & _).
  - intros Hv. destruct (violates_field _ Hv) as [k Hk]. exists k.
    split; [by apply elem_of_check_field|by eapply violation_field_names].
Qed.

Lemma check_field_NoDup k : NoDup (check_field sch rs k).
Proof.
  unfold check_field. repeat case_match;
    apply NoDup_nil_2 || apply NoDup_singleton.
Qed.

(** Each violation is reported once. *)
Lemma violations_NoDup : NoDup (violations sch rs).
Proof.
  apply NoDup_bind; [|intros; apply check_field_NoDup|apply NoDup_elements].
  intros k1 k2 e _ _ [_ H1]%elem_of_check_field [_ H2]%elem_of_check_field.
  congruence.
Qed.

(** No rule fails exactly when the set satisfies the schema. *)
Lemma valid_no_violation : valid sch rs ↔ ∀ e, ¬ violates sch rs e.
Proof.
  split.
  - intros [Hreq Hall Hknown] e Hv.
    destruct Hv as [k f Hf Hr Hn|k v Hs Hf Hv|k f v l Hf Hv Ha Hl].
    + destruct (Hreq k f) as [? ?]; [done|by rewrite Hr|congruence].
    + destruct (Hknown k) as [? ?]; [by rewrite Hs|by eexists|congruence].
    + by apply Hl, (Hall k f).
  - intros Hno. split.
    + intros k f Hf Hr%Is_true_true. destruct (rs !! k) eqn:Hk; [by eexists|].
      destruct (Hno (MissingRequiredFieldError k)). by econstructor.
    + intros k f v l Hf Hv Ha. destruct (decide (v ∈ l)); [done|].
      destruct (Hno (InvalidValueError k v l)). by econstructor.
    + intros k Hs%Is_true_true [v Hv].
      destruct (schema_fields sch !! k) eqn:Hf; [by eexists|].
      destruct (Hno (UnknownFieldError k)). by econstructor.
Qed.

Lemma violations_nil : violations sch rs = [] ↔ valid sch rs.
Proof.
  rewrite valid_no_violation. setoid_rewrite <-elem_of_violations.
  split; [intros -> e; apply not_elem_of_nil|apply elem_of_nil_inv].
Qed.

(** ** Validation: lemmas *)

(** Validation succeeds exactly on the sets that satisfy the schema, with
    the defaults added. *)
Lemma validate_Ok rs' :
  validate sch rs = Ok rs' ↔ valid sch rs ∧ rs' = inject_defaults sch rs.
Proof.
  rewrite <-violations_nil. unfold validate.
  destruct (violations sch rs); split;
    [by intros [= <-]|by intros [_ ->]|done|by intros [[=] _]].
Qed.

(** It fails with all the violations, and never with none. *)
Lemma validate_Err vs :
  validate sch rs = Err vs ↔ vs = violations sch rs ∧ ¬ valid sch rs.
Proof.
  rewrite <-violations_nil. unfold validate.
  destruct (violations sch rs); split;
    [done|by intros [_ []]|by intros [= <-]|by intros [-> _]].
Qed.

Lemma inject_defaults_lookup k :
  inject_defaults sch rs !! k =
  match rs !! k with
  | Some v => Some v
  | None => schema_fields sch !! k ≫= field_default
  end.
Proof.
  unfold inject_defaults, defaults. rewrite lookup_union, lookup_omap.
  by destruct (rs !! k), (schema_fields sch !! k ≫= field_default).
Qed.

(** The result keeps every field of the set: an undeclared field passes
    through unchanged when validation succeeds. *)
Lemma validate_keeps rs' k v :
  validate sch rs = Ok rs' → rs !! k = Some v → rs' !! k = Some v.
Proof.
  intros [_ ->]%validate_Ok Hk. by rewrite inject_defaults_lookup, Hk.
Qed.

(** What the result adds is the default of an absent field. *)
Lemma validate_adds rs' k :
  validate sch rs = Ok rs' → rs !! k = None →
  rs' !! k = schema_fields sch !! k ≫= field_default.
Proof.
  intros [_ ->]%validate_Ok Hk. by rewrite inject_defaults_lookup, Hk.
Qed.

(** In a schema that is not strict every undeclared field is accepted. *)
Lemma unknown_field_tolerated k :
  schema_strict sch = false → ¬ violates sch rs (UnknownFieldError k).
Proof. intros Hs Hv. inversion Hv. congruence. Qed.

End validator.

(** When the defaults are allowed values, the result of a validation
    validates, and is returned unchanged. *)
Lemma validate_idempotent sch rs rs' :
  defaults_allowed sch → validate sch rs = Ok rs' → validate sch rs' = Ok rs'.
Proof.
  intros Hd [[Hreq Hall Hknown] ->]%validate_Ok. apply validate_Ok. split.
  - split.
    + intros k f Hf Hr. destruct (Hreq k f Hf Hr) as [v Hv].
      exists v. by rewrite inject_defaults_lookup, Hv.
    + intros k f v l Hf. rewrite inject_defaults_lookup.
      destruct (rs !! k) eqn:Hk; [intros [= ->]; by eapply Hall|].
      rewrite Hf. simpl. intros ? ?. by eapply Hd.
    + intros k Hs. rewrite inject_defaults_lookup.
      destruct (rs !! k) eqn:Hk; [intros _; apply Hknown; by eauto|].
      destruct (schema_fields sch !! k); [by eauto|by intros [? ?]].
  - unfold inject_defaults.
    by rewrite <-(assoc_L (∪)), (idemp_L (∪) (defaults sch)).
Qed.

(** ** The examples of the specification (section 8) *)

(** Two required fields missing and one value outside its allowed set:
    three violations in one call. *)
Example schema_aggregation :
  validate ex_schema {[ "priority" := "Urgent" ]} =
  Err [MissingRequiredFieldError "type";
       MissingRequiredFieldError "project";
       InvalidValueError "priority" "Urgent" ["Low"; "Medium"; "High"]].
Proof. by_compute. Qed.

(** An undeclared field passes when the schema is not strict, and the
    absent optional field gets its default. *)
Example unknown_field_passes :
  validate ex_schema {[ "project" := "TED"; "type" := "Bug"; "team" := "x" ]} =
  Ok {[ "project" := "TED"; "type" := "Bug"; "team" := "x";
        "priority" := "Medium" ]}.
Proof. by_compute. Qed.

Example unknown_field_strict :
  validate ex_strict {[ "project" := "TED"; "type" := "Bug"; "team" := "x" ]} =
  Err [UnknownFieldError "team"].
Proof. by_compute. Qed.

(** A default outside the allowed set is injected, and the result does not
    validate. *)
Example default_not_checked :
  validate ex_bad_default ∅ = Ok {[ "priority" := "Urgent" ]} ∧
  validate ex_bad_default {[ "priority" := "Urgent" ]} =
    Err [InvalidValueError "priority" "Urgent" ["Low"; "High"]].
Proof. by_compute. Qed.
