(* ===== verification/Request.v ===== *)
(** * The issue request builder

    The engine's issue request and its builder, written from the
    specification (sections 3 and 4.4); the code of the engine is not among
    the sources, so nothing here translates source lines.

    The issue request is the validated fields and the ticket title.  The
    builder fails with [MissingTitleError] when the title is missing or
    empty, and does not fail otherwise. *)

From stdpp Require Import gmap.
From S2P Require Import Prelude Profile.
From stdpp Require Import options.

Record IssueRequest := {
  request_title : string;
  request_fields : gmap string string;
}.

Global Instance IssueRequest_eq_dec : EqDecision IssueRequest.
Proof. solve_decision. Defined.

Implicit Types (rs : gmap string string) (t : option string) (s : string).
Implicit Types (rq : IssueRequest).

Definition build_request rs t : result Error IssueRequest :=
  match t with
  | None | Some "" => Err MissingTitleError
  | Some s => Ok {| request_title := s; request_fields := rs |}
  end.

Lemma build_request_Ok rs t rq :
  build_request rs t = Ok rq ↔
  ∃ s, t = Some s ∧ s ≠ "" ∧ rq = {| request_title := s; request_fields := rs |}.
Proof.
  unfold build_request. split.
  - destruct t as [[|a s]|]; [done| |done]. intros [= <-]. by eexists.
  - intros (s & -> & Hs & ->). by destruct s.
Qed.

Lemma build_request_Err rs t e :
  build_request rs t = Err e ↔
  e = MissingTitleError ∧ (t = None ∨ t = Some "").
Proof.
  unfold build_request. destruct t as [[|a s]|]; split;
    [intros [= <-]; auto|by intros [-> _]|done|by intros [_ [|]]
    |intros [= <-]; auto|by intros [-> _]].
Qed.

(** The builder adds nothing to the fields and drops none. *)
Lemma build_request_fields rs t rq :
  build_request rs t = Ok rq → request_fields rq = rs.
Proof. by intros (s & _ & _ & ->)%build_request_Ok. Qed.
