(* ===== verification/Engine.v ===== *)
(** * The resolution of a ticket

    The data flow of the engine, written from the specification (sections 2
    and 6): the profile resolver, the explicit overrides, the template
    engine, the schema validator and the request builder, one after the
    other, the first failure ending the resolution.  The code of the engine
    is not among the sources, so nothing here translates source lines.

    The runtime context holds the ticket title under the name [title].  The
    errors of the resolver, the template engine and the builder are returned
    alone; the validator returns all its violations.

    The environment-variable overrides are read as a layer of properties
    between the inherited values and the explicit overrides, which is the
    precedence the specification gives them; being properties of the merged
    set, the template engine may refer to them.  An invocation without
    environment overrides has an empty layer.

    The theorems: a ticket resolves exactly when every stage succeeds, and
    then the request holds the title and the validated fields; a failure of
    a stage is the failure of the resolution, never an empty one; for every
    key the explicit override wins over the environment override, which
    wins over the inherited value; an override and a field the schema does
    not declare reach the request unchanged. *)

From stdpp Require Import gmap.
From S2P Require Import Prelude Strings Profile Template Schema Request.
From stdpp Require Import options.

(** What the command line and the environment supply. *)
Record Invocation := {
  inv_profile : string;
  inv_title : option string;
  inv_overrides : gmap string string;
  inv_env : gmap string string;
}.

Implicit Types (ps : gmap string Profile) (sch : Schema) (inv : Invocation).
Implicit Types (m rs : gmap string string) (rq : IssueRequest).

(** The name of the ticket title in the runtime context. *)
Definition title_key : string := "title".

Definition runtime_context inv : gmap string string :=
  match inv_title inv with
  | Some t => {[ title_key := t ]}
  | None => ∅
  end.

(** A fatal error, as the one error of the resolution. *)
Definition fatal {A} (r : result Error A) : result (list Error) A :=
  match r with
  | Ok a => Ok a
  | Err e => Err [e]
  end.

(** The layers above the inherited values: the environment overrides, and
    the explicit overrides above them. *)
Definition layered inv m : gmap string string :=
  apply_overrides (inv_overrides inv) (apply_overrides (inv_env inv) m).

(** The merged set with the overrides, before template resolution. *)
Definition merged_properties ps inv : result Error (gmap string string) :=
  r ← resolve_profile ps (inv_profile inv);
  Ok (layered inv r.1).

Definition resolve_ticket ps sch inv : result (list Error) IssueRequest :=
  m ← fatal (merged_properties ps inv);
  rs ← fatal (resolve_all m (runtime_context inv));
  fields ← validate sch rs;
  fatal (build_request fields (inv_title inv)).

(** How a resolution fails: at one stage, with the error of the resolver,
    of the template engine or of the builder, or with the violations of the
    schema. *)
Inductive failure ps sch inv : list Error → Prop :=
| failure_profile e :
    merged_properties ps inv = Err e → failure ps sch inv [e]
| failure_template m e :
    merged_properties ps inv = Ok m →
    resolve_all m (runtime_context inv) = Err e →
    failure ps sch inv [e]
| failure_schema m rs :
    merged_properties ps inv = Ok m →
    resolve_all m (runtime_context inv) = Ok rs →
    ¬ valid sch rs →
    failure ps sch inv (violations sch rs)
| failure_title m rs :
    merged_properties ps inv = Ok m →
    resolve_all m (runtime_context inv) = Ok rs →
    valid sch rs →
    inv_title inv = None ∨ inv_title inv = Some "" →
    failure ps sch inv [MissingTitleError].

(** ** The example of an invocation *)

Definition ex_profiles : gmap string Profile :=
  index_profiles [
    {| name := "base"; parent := None;
       properties := {[ "project" := "TED"; "type" := "Task";
                        "summary" := "[{{ project }}] {{ title }}" ]} |};
    {| name := "bugs"; parent := Some "base";
       properties := {[ "type" := "Bug"; "team" := "core" ]} |} ].

Definition ex_invocation : Invocation :=
  {| inv_profile := "bugs"; inv_title := Some "Fix login";
     inv_overrides := {[ "priority" := "High" ]};
     inv_env := {[ "priority" := "Low"; "project" := "OPS" ]} |}.

(** ** Lemmas *)

(** The stages are kept folded when a resolution is simplified. *)
Local Arguments merged_properties : simpl never.
Local Arguments resolve_all : simpl never.
Local Arguments validate : simpl never.
Local Arguments build_request : simpl never.

Lemma fatal_Ok {A} (r : result Error A) a : fatal r = Ok a ↔ r = Ok a.
Proof. destruct r; simpl; split; congruence. Qed.

Lemma fatal_Err {A} (r : result Error A) es :
  fatal r = Err es ↔ ∃ e, r = Err e ∧ es = [e].
Proof.
  destruct r as [a|e]; simpl; split; [done|by intros (? & ? & _)| |].
  - intros [= <-]. by exists e.
  - by intros (? & [= <-] & ->).
Qed.

Section resolve_ticket.
Context (ps : gmap string Profile) (sch : Schema) (inv : Invocation).

(** A ticket resolves exactly when every stage succeeds; the request is the
    title with the validated fields. *)
Lemma resolve_ticket_Ok rq :
  resolve_ticket ps sch inv = Ok rq ↔
  ∃ m rs t,
    merged_properties ps inv = Ok m ∧
    resolve_all m (runtime_context inv) = Ok rs ∧
    valid sch rs ∧
    inv_title inv = Some t ∧ t ≠ "" ∧
    rq = {| request_title := t; request_fields := inject_defaults sch rs |}.
Proof.
  unfold resolve_ticket. split.
  - intros (m & Hm%fatal_Ok & (rs & Hrs%fatal_Ok & (fs & Hv & Hb)
      %result_bind_Ok)%result_bind_Ok)%result_bind_Ok.
    apply validate_Ok in Hv as [Hv ->].
    apply fatal_Ok, build_request_Ok in Hb as (t & ? & ? & ->).
    by exists m, rs, t.
  - intros (m & rs & t & -> & Hrs & Hv & Ht & ? & ->). simpl.
    rewrite Hrs. simpl.
    rewrite (proj2 (validate_Ok sch rs _) (conj Hv eq_refl)). simpl.
    rewrite Ht. by destruct t.
Qed.

(** A resolution fails exactly as one of its stages fails. *)
Lemma resolve_ticket_Err es :
  resolve_ticket ps sch inv = Err es ↔ failure ps sch inv es.
Proof.
  unfold resolve_ticket. split.
  - destruct (merged_properties ps inv) as [m|e] eqn:Hm; simpl;
      [|intros [= <-]; by constructor].
    destruct (resolve_all m _) as [rs|e] eqn:Hrs; simpl;
      [|intros [= <-]; by econstructor].
    destruct (validate sch rs) as [fs|vs] eqn:Hv; simpl.
    + apply validate_Ok in Hv as [Hv ->].
      intros (e & [-> ?]%build_request_Err & ->)%fatal_Err.
      by eapply failure_title.
    + apply validate_Err in Hv as [-> Hv]. intros [= <-].
      by eapply failure_schema.
  - intros [e ->|m e -> Hrs|m rs -> Hrs Hv|m rs -> Hrs Hv Ht]; simpl;
      [done|rewrite Hrs; simpl..]; [done| |].
    + by rewrite (proj2 (validate_Err sch rs _) (conj eq_refl Hv)).
    + rewrite (proj2 (validate_Ok sch rs _) (conj Hv eq_refl)). simpl.
      by destruct Ht as [-> | ->].
Qed.

(** No resolution fails without an error. *)
Lemma resolve_ticket_Err_not_nil es :
  resolve_ticket ps sch inv = Err es → es ≠ [].
Proof.
  intros [| |m rs _ _ Hv|]%resolve_ticket_Err; [done..| |done].
  by rewrite violations_nil.
Qed.

(** A property of the merged set whose value holds no placeholder reaches
    the request unchanged: so does an explicit override, and so does a
    field the schema does not declare. *)
Lemma resolve_ticket_plain m rq k v :
  merged_properties ps inv = Ok m → resolve_ticket ps sch inv = Ok rq →
  m !! k = Some v → has_opener v = false →
  request_fields rq !! k = Some v.
Proof.
  intros Hm (m' & rs & t & Hm' & Hrs & _ & _ & _ & ->)%resolve_ticket_Ok Hk Hv.
  assert (m' = m) as -> by congruence. simpl.
  rewrite inject_defaults_lookup.
  destruct (resolve_all_lookup_Some _ _ _ _ _ Hrs Hk) as (x & -> & Hx).
  rewrite resolve_property_plain in Hx by done. congruence.
Qed.

(** The precedence of the layers: the explicit override, else the
    environment override, else the inherited value. *)
Lemma layered_lookup m k :
  layered inv m !! k =
  match inv_overrides inv !! k, inv_env inv !! k with
  | Some v, _ => Some v
  | None, Some v => Some v
  | None, None => m !! k
  end.
Proof.
  unfold layered. rewrite !apply_overrides_lookup.
  by destruct (inv_overrides inv !! k), (inv_env inv !! k).
Qed.

Lemma merged_properties_Ok m :
  merged_properties ps inv = Ok m ↔
  ∃ r, resolve_profile ps (inv_profile inv) = Ok r ∧ m = layered inv r.1.
Proof.
  unfold merged_properties. rewrite result_bind_Ok.
  split; intros (r & ? & ?); exists r; split; congruence.
Qed.

Lemma merged_properties_override m k v :
  merged_properties ps inv = Ok m → inv_overrides inv !! k = Some v →
  m !! k = Some v.
Proof.
  intros (r & _ & ->)%merged_properties_Ok Hk.
  by rewrite layered_lookup, Hk.
Qed.

Lemma merged_properties_env m k v :
  merged_properties ps inv = Ok m → inv_overrides inv !! k = None →
  inv_env inv !! k = Some v → m !! k = Some v.
Proof.
  intros (r & _ & ->)%merged_properties_Ok Hk He.
  by rewrite layered_lookup, Hk, He.
Qed.

(** Without overrides for a key, the merged set holds the inherited
    value. *)
Lemma merged_properties_inherited m k :
  merged_properties ps inv = Ok m → inv_overrides inv !! k = None →
  inv_env inv !! k = None →
  ∃ r, resolve_profile ps (inv_profile inv) = Ok r ∧ m !! k = r.1 !! k.
Proof.
  intros (r & Hr & ->)%merged_properties_Ok Hk He. exists r.
  by rewrite layered_lookup, Hk, He.
Qed.

(** The title of the request is the title of the invocation, and what a
    placeholder for the title resolves to. *)
Lemma resolve_ticket_title rq :
  resolve_ticket ps sch inv = Ok rq →
  inv_title inv = Some (request_title rq) ∧
  runtime_context inv !! title_key = Some (request_title rq).
Proof.
  intros (m & rs & t & _ & _ & _ & Ht & _ & ->)%resolve_ticket_Ok.
  unfold runtime_context. rewrite Ht. simpl. by rewrite lookup_singleton_eq.
Qed.

End resolve_ticket.

(** ** The example *)

(** The profile [bugs] inherits from [base]; the environment sets the
    project and the priority, the command line the priority again. *)
Example ticket_resolved :
  resolve_ticket ex_profiles ex_schema ex_invocation =
  Ok {| request_title := "Fix login";
        request_fields := {[ "project" := "OPS"; "type" := "Bug";
                             "team" := "core"; "priority" := "High";
                             "summary" := "[OPS] Fix login" ]} |}.
Proof. by_compute. Qed.

Example ticket_without_title :
  resolve_ticket ex_profiles ex_schema
    {| inv_profile := "base"; inv_title := None; inv_overrides := ∅;
       inv_env := ∅ |} =
  Err [UnresolvedReferenceError "title" "summary"].
Proof. by_compute. Qed.

Example ticket_unknown_profile :
  resolve_ticket ex_profiles ex_schema
    {| inv_profile := "ops"; inv_title := Some "x"; inv_overrides := ∅;
       inv_env := ∅ |} =
  Err [UnknownProfileError "ops"].
Proof. by_compute. Qed.
